(** * Log-mel spectrogram transform of [ecoacoustics]

    A shallow embedding of
    [src/ecoacoustics/transforms/logmelspectrogram.py]
    (class [LogMelSpectrogramNp]) and the properties its specification
    states about it.

    Modelling conventions.
    - Python [int] values are [Z]; array lengths are [nat].
    - Python and numpy floating-point values are idealised as real
      numbers ([R] of the Standard Library): rounding, overflow, NaN and
      infinities of binary64 are not represented.  Where the source reaches
      a value that has no real counterpart and then raises (division of a
      Python float by zero, [int] of an infinity or of a NaN) the model
      raises the same exception.
    - A Python exception is a value of [exn]; a computation that may raise
      returns a [result]. *)

From Stdlib Require Import ZArith List Bool Lia Reals Lra.
Import ListNotations.

Set Implicit Arguments.

(** ** Exceptions and results *)

(** The three [raise ValueError] statements of
    [spectrogram_to_mel_matrix], in source order. *)
Inductive range_violation : Type :=
| LowerNegative
| LowerNotBelowUpper
| UpperAboveNyquist.

Inductive exn : Type :=
| InvalidRange (v : range_violation)
    (* ValueError raised by spectrogram_to_mel_matrix itself *)
| NegativeDimensions
    (* ValueError of numpy: a negative length or dimension *)
| SqueezeError
    (* ValueError of numpy: squeezed axis has size other than one *)
| AxisError
    (* numpy: axis out of bounds for the array's rank *)
| IndexError
| ZeroDivisionError
| OverflowError
    (* int() of an infinite float *)
| NanToInteger
    (* ValueError of Python: int() of a NaN *)
| InvalidFFTLength
    (* ValueError of numpy.fft: fewer than one data point *)
| UndefinedRead
    (* a strided view that reads outside its buffer *)
| UnpackError
    (* ValueError of Python: unpacking a sequence of the wrong length *)
| RankNotModelled.
    (* input whose rank the model does not follow *)

Inductive result (A : Type) : Type :=
| Ok (a : A)
| Raise (e : exn).

Arguments Ok {A} a.
Arguments Raise {A} e.

Definition bind {A B : Type} (r : result A) (k : A -> result B) : result B :=
  match r with
  | Ok a => k a
  | Raise e => Raise e
  end.

Notation "x <- r ;; k" := (bind r (fun x => k))
  (at level 61, r at next level, right associativity).

(** The result of a computation seen through a function. *)
Definition fmap {A B : Type} (f : A -> B) (r : result A) : result B :=
  match r with
  | Ok a => Ok (f a)
  | Raise e => Raise e
  end.

Fixpoint mapM {A B : Type} (f : A -> result B) (l : list A) : result (list B) :=
  match l with
  | [] => Ok []
  | a :: l' => b <- f a ;; bs <- mapM f l' ;; Ok (b :: bs)
  end.

(** [range(n)] and [np.arange(n)] for an integer [n]: empty when [n <= 0]. *)
Definition range (n : Z) : list nat := seq 0 (Z.to_nat n).

(** ** Framing *)

Section Framer.

Variable A : Type.

(** Element [z] of a buffer, counted in items from its start. *)
Definition read (data : list A) (z : Z) : result A :=
  if (z <? 0)%Z then Raise UndefinedRead
  else match nth_error data (Z.to_nat z) with
       | Some x => Ok x
       | None => Raise UndefinedRead
       end.

(** [np.lib.stride_tricks.as_strided(data, shape=(rows, cols),
    strides=(stride0, stride1))] on a contiguous 1-D buffer, strides
    counted in items.  A negative dimension makes numpy raise
    ValueError; the view itself is never bounds-checked, so an entry that
    lies outside the buffer is an undefined read. *)
Definition as_strided (data : list A) (rows cols stride0 stride1 : Z)
  : result (list (list A)) :=
  if ((rows <? 0) || (cols <? 0))%Z then Raise NegativeDimensions
  else
    mapM (fun i =>
            mapM (fun j => read data (Z.of_nat i * stride0 + Z.of_nat j * stride1)%Z)
                 (range cols))
         (range rows).

(** [frame]: [int(np.floor(a / b))] on Python integers is the floor of
    the quotient, [Z.div] (the float quotient of two array lengths floors
    to the same integer); [a / 0] raises ZeroDivisionError. *)
Definition frame (data : list A) (window_length hop_length : Z)
  : result (list (list A)) :=
  let num_samples := Z.of_nat (length data) in
  if (hop_length =? 0)%Z then Raise ZeroDivisionError
  else
    let num_frames := (1 + (num_samples - window_length) / hop_length)%Z in
    as_strided data num_frames window_length hop_length 1.

End Framer.

(** ** Numeric helpers *)

Open Scope R_scope.

(** Sum of a list of reals. *)
Definition Rsum (l : list R) : R := fold_right Rplus 0 l.

(** Python's [round] on a float: the nearest integer, a tie going to the
    even neighbour. *)
Definition py_round (x : R) : Z :=
  let f := Zfloor x in
  let d := x - IZR f in
  if Rlt_dec d (1 / 2) then f
  else if Rlt_dec (1 / 2) d then (f + 1)%Z
  else if Z.even f then f else (f + 1)%Z.

(** Assignment to one position of a list that has it; the callers below
    check the index first, as numpy does. *)
Fixpoint set_nth {A : Type} (i : nat) (v : A) (l : list A) : list A :=
  match l, i with
  | [], _ => []
  | _ :: t, O => v :: t
  | h :: t, S i' => h :: set_nth i' v t
  end.

(** [np.linspace(start, stop, num)] with its default [endpoint=True],
    following numpy's implementation: [num < 0] raises ValueError; the
    samples are [arange(num) * step + start] with
    [step = (stop - start) / (num - 1)] (computed as
    [arange(num) / (num - 1) * delta] when the step is zero, and as
    [arange(num) * delta] when [num <= 1]); for [num > 1] the last sample
    is then overwritten with [stop]. *)
Definition linspace (start stop : R) (num : Z) : result (list R) :=
  if (num <? 0)%Z then Raise NegativeDimensions
  else
    let div := (num - 1)%Z in
    let delta := stop - start in
    let y :=
      if (0 <? div)%Z then
        let step := delta / IZR div in
        if Req_dec_T step 0
        then map (fun i => INR i / IZR div * delta + start) (range num)
        else map (fun i => INR i * step + start) (range num)
      else map (fun i => INR i * delta + start) (range num) in
    if (1 <? num)%Z then Ok (removelast y ++ [stop]) else Ok y.

(** ** The transform *)

(** The attributes that [__init__] stores on the module. *)
Record LogMelSpectrogramNp : Type := {
  window_length_samples : Z;
  hop_length_samples : Z;
  fft_length : Z;
  log_offset : R;
  audio_sample_rate : Z;
  num_mel_bins : Z;
  lower_edge_hertz : R;
  upper_edge_hertz : R;
  mel_break_freq_hertz : R;
  mel_high_freq_q : R
}.

(** [2 ** int(np.ceil(np.log(w) / np.log(2.0)))] for an integer [w].
    [np.log(0)] is [-inf] and [int(-inf)] raises OverflowError;
    [np.log] of a negative number is NaN and [int(nan)] raises
    ValueError.  For [w >= 1] the exponent is not negative. *)
Definition next_power_of_two (w : Z) : result Z :=
  if (w =? 0)%Z then Raise OverflowError
  else if (w <? 0)%Z then Raise NanToInteger
  else Ok (2 ^ Zceil (ln (IZR w) / ln 2))%Z.

(** [LogMelSpectrogramNp.__init__]. *)
Definition init (sample_rate : Z)
  (stft_window_length_seconds stft_hop_length_seconds log_offset' : R)
  (num_mel_bins' : Z) (mel_min_hz mel_max_hz : R)
  (mel_break_freq_hertz' mel_high_freq_q' : R) : result LogMelSpectrogramNp :=
  let wls := py_round (IZR sample_rate * stft_window_length_seconds) in
  let hls := py_round (IZR sample_rate * stft_hop_length_seconds) in
  fft <- next_power_of_two wls ;;
  Ok {| window_length_samples := wls;
        hop_length_samples := hls;
        fft_length := fft;
        log_offset := log_offset';
        audio_sample_rate := sample_rate;
        num_mel_bins := num_mel_bins';
        lower_edge_hertz := mel_min_hz;
        upper_edge_hertz := mel_max_hz;
        mel_break_freq_hertz := mel_break_freq_hertz';
        mel_high_freq_q := mel_high_freq_q' |}.

(** [periodic_hann]: [2 * np.pi / window_length] divides a Python float
    by a Python integer and raises ZeroDivisionError for a zero length. *)
Definition periodic_hann (window_length : Z) : result (list R) :=
  if (window_length =? 0)%Z then Raise ZeroDivisionError
  else
    Ok (map (fun n => 0.5 - 0.5 * cos (2 * PI / IZR window_length * INR n))
            (range window_length)).

(** [hertz_to_mel], the formula. *)
Definition hertz_to_mel (self : LogMelSpectrogramNp) (frequencies_hertz : R) : R :=
  mel_high_freq_q self * ln (1 + frequencies_hertz / mel_break_freq_hertz self).

(** [hertz_to_mel] called on a Python scalar: the quotient
    [frequencies_hertz / self.mel_break_freq_hertz] is a division of
    Python numbers, which raises ZeroDivisionError for a zero break
    frequency.  (Called on a numpy array the same quotient only warns;
    [spectrogram_to_mel_matrix] makes both calls, so with a zero break
    frequency it raises either way.) *)
Definition hertz_to_mel_scalar (self : LogMelSpectrogramNp) (f : R) : result R :=
  if Req_dec_T (mel_break_freq_hertz self) 0 then Raise ZeroDivisionError
  else Ok (hertz_to_mel self f).

(** The weight of one spectrogram bin in one triangular band:
    [np.maximum(0.0, np.minimum(lower_slope, upper_slope))]. *)
Definition triangle_weight (lower_edge_mel center_mel upper_edge_mel x : R) : R :=
  let lower_slope := (x - lower_edge_mel) / (center_mel - lower_edge_mel) in
  let upper_slope := (upper_edge_mel - x) / (upper_edge_mel - center_mel) in
  Rmax 0 (Rmin lower_slope upper_slope).

Section Filterbank.

(** What [np.empty] leaves in a cell before it is written. *)
Variable uninit : R.

(** [np.empty((rows, cols))]. *)
Definition np_empty (rows cols : Z) : result (list (list R)) :=
  if ((rows <? 0) || (cols <? 0))%Z then Raise NegativeDimensions
  else Ok (repeat (repeat uninit (Z.to_nat cols)) (Z.to_nat rows)).

(** [m[:, i] = col] on a matrix of [cols] columns. *)
Definition set_column (cols : Z) (i : nat) (col : list R) (m : list (list R))
  : result (list (list R)) :=
  if (Z.of_nat i <? cols)%Z
  then Ok (map (fun rv => set_nth i (snd rv) (fst rv)) (combine m col))
  else Raise IndexError.

(** [m[0, :] = 0.0]. *)
Definition zero_row0 (m : list (list R)) : result (list (list R)) :=
  match m with
  | [] => Raise IndexError
  | row0 :: rest => Ok (map (fun _ => 0) row0 :: rest)
  end.

(** One pass of the loop body of [spectrogram_to_mel_matrix]: unpack the
    three band edges for band [i] and write column [i]. *)
Definition fill_band (cols : Z) (band_edges_mel spectrogram_bins_mel : list R)
  (i : nat) (m : list (list R)) : result (list (list R)) :=
  match firstn 3 (skipn i band_edges_mel) with
  | [lower_edge_mel; center_mel; upper_edge_mel] =>
      set_column cols i
        (map (triangle_weight lower_edge_mel center_mel upper_edge_mel)
             spectrogram_bins_mel) m
  | _ => Raise UnpackError
  end.

(** The [for i in range(num_mel_bins)] loop, over the remaining indices. *)
Fixpoint fill_bands (cols : Z) (band_edges_mel spectrogram_bins_mel : list R)
  (bands : list nat) (m : list (list R)) : result (list (list R)) :=
  match bands with
  | [] => Ok m
  | i :: bands' =>
      m' <- fill_band cols band_edges_mel spectrogram_bins_mel i m ;;
      fill_bands cols band_edges_mel spectrogram_bins_mel bands' m'
  end.

(** [spectrogram_to_mel_matrix]. *)
Definition spectrogram_to_mel_matrix (self : LogMelSpectrogramNp)
  (num_mel_bins' num_spectrogram_bins audio_sample_rate' : Z)
  (lower_edge_hertz' upper_edge_hertz' : R) : result (list (list R)) :=
  let nyquist_hertz := IZR audio_sample_rate' / 2 in
  if Rlt_dec lower_edge_hertz' 0 then Raise (InvalidRange LowerNegative)
  else if Rge_dec lower_edge_hertz' upper_edge_hertz'
  then Raise (InvalidRange LowerNotBelowUpper)
  else if Rgt_dec upper_edge_hertz' nyquist_hertz
  then Raise (InvalidRange UpperAboveNyquist)
  else
    spectrogram_bins_hertz <- linspace 0 nyquist_hertz num_spectrogram_bins ;;
    let spectrogram_bins_mel := map (hertz_to_mel self) spectrogram_bins_hertz in
    lower_mel <- hertz_to_mel_scalar self lower_edge_hertz' ;;
    upper_mel <- hertz_to_mel_scalar self upper_edge_hertz' ;;
    band_edges_mel <- linspace lower_mel upper_mel (num_mel_bins' + 2) ;;
    mel_weights_matrix <- np_empty num_spectrogram_bins num_mel_bins' ;;
    mel_weights_matrix <-
      fill_bands num_mel_bins' band_edges_mel spectrogram_bins_mel
                 (range num_mel_bins') mel_weights_matrix ;;
    zero_row0 mel_weights_matrix.

End Filterbank.

(** ** Spectrum and forward pass *)

(** [np.fft.rfft(a, n)] pads a row with zeros, or crops it, to [n]
    samples. *)
Definition fit_length (n : nat) (row : list R) : list R :=
  firstn n row ++ repeat 0 (n - length row).

(** Magnitude of bin [k] of the [n]-point discrete Fourier transform. *)
Definition dft_magnitude (n : nat) (x : list R) (k : nat) : R :=
  let angle j := 2 * PI * INR j * INR k / INR n in
  let re := Rsum (map (fun jx => snd jx * cos (angle (fst jx)))
                      (combine (seq 0 n) x)) in
  let im := Rsum (map (fun jx => - (snd jx * sin (angle (fst jx))))
                      (combine (seq 0 n) x)) in
  sqrt (re * re + im * im).

(** [np.abs(np.fft.rfft(rows, n))] along the last axis: [n // 2 + 1] bins
    per row; fewer than one point is refused. *)
Definition rfft_magnitude (rows : list (list R)) (n : Z) : result (list (list R)) :=
  if (n <? 1)%Z then Raise InvalidFFTLength
  else
    Ok (map (fun row =>
               map (dft_magnitude (Z.to_nat n) (fit_length (Z.to_nat n) row))
                   (range (n / 2 + 1)))
            rows).

(** [stft_magnitude] on a 1-D signal. *)
Definition stft_magnitude (self : LogMelSpectrogramNp) (signal : list R)
  (fft_length' hop_length window_length : Z) : result (list (list R)) :=
  frames <- frame signal window_length hop_length ;;
  window <- periodic_hann window_length ;;
  let windowed_frames :=
    map (fun fr => map (fun xw => fst xw * snd xw) (combine fr window)) frames in
  rfft_magnitude windowed_frames fft_length'.

(** [np.dot(a, b)] for a matrix [a] and a matrix [b] of [cols] columns.
    In [forward] the width of [a] and the number of rows of [b] are both
    [fft_length // 2 + 1]. *)
Definition dot (a b : list (list R)) (cols : Z) : list (list R) :=
  map (fun arow =>
         map (fun i => Rsum (map (fun xr => fst xr * nth i (snd xr) 0)
                                 (combine arow b)))
             (range cols))
      a.

(** A tensor: its shape and its entries in row-major order. *)
Record tensor : Type := { shape : list nat; values : list R }.

(** [data.numpy().squeeze(axis=0)]. *)
Definition squeeze_axis0 (data : tensor) : result tensor :=
  match shape data with
  | [] => Raise AxisError
  | d :: s =>
      if Nat.eqb d 1 then Ok {| shape := s; values := values data |}
      else Raise SqueezeError
  end.

Section Forward.

(** What [np.empty] leaves in a cell before it is written. *)
Variable uninit : R.

(** [forward] up to the argument of the final logarithm,
    [mel_spectrogram + self.log_offset].  After the squeeze the model
    follows a 1-D signal, the documented input; [frame] reads
    [data.shape[0]], which a 0-d array does not have.
    [spectrogram.shape[1]], the number of bins that [rfft] returns, is
    [fft_length // 2 + 1]. *)
Definition mel_plus_offset (self : LogMelSpectrogramNp) (data : tensor)
  : result (list (list R)) :=
  np_data <- squeeze_axis0 data ;;
  match shape np_data with
  | [] => Raise IndexError
  | [_] =>
      spectrogram <-
        stft_magnitude self (values np_data) (fft_length self)
                       (hop_length_samples self) (window_length_samples self) ;;
      mel_matrix <-
        spectrogram_to_mel_matrix uninit self (num_mel_bins self)
          (fft_length self / 2 + 1) (audio_sample_rate self)
          (lower_edge_hertz self) (upper_edge_hertz self) ;;
      let mel_spectrogram := dot spectrogram mel_matrix (num_mel_bins self) in
      Ok (map (map (fun x => x + log_offset self)) mel_spectrogram)
  | _ => Raise RankNotModelled
  end.

(** [forward]: the element-wise logarithm of the above. *)
Definition forward (self : LogMelSpectrogramNp) (data : tensor)
  : result (list (list R)) :=
  args <- mel_plus_offset self data ;;
  Ok (map (map ln) args).

End Forward.

(** ** The filterbank in closed form *)

(** Sample [i] of [num] evenly spaced values from [start] to [stop]. *)
Definition evenly_spaced (start stop : R) (num : Z) (i : nat) : R :=
  start + INR i * (stop - start) / IZR (num - 1).

(** The weights of one spectrogram bin, of mel value [x], in the first
    [bands] triangular bands over the given band edges. *)
Definition band_weights (band_edges_mel : list R) (bands : nat) (x : R) : list R :=
  map (fun i => triangle_weight (nth i band_edges_mel 0)
                                (nth (S i) band_edges_mel 0)
                                (nth (S (S i)) band_edges_mel 0) x)
      (seq 0 bands).

(** The rows that the loop of [spectrogram_to_mel_matrix] writes, before
    the row of the DC bin is cleared. *)
Definition triangle_rows (self : LogMelSpectrogramNp)
  (M K sr : Z) (lo hi : R) : list (list R) :=
  let edges := map (evenly_spaced (hertz_to_mel self lo) (hertz_to_mel self hi) (M + 2))
                   (range (M + 2)) in
  map (fun k => band_weights edges (Z.to_nat M)
                  (hertz_to_mel self (evenly_spaced 0 (IZR sr / 2) K k)))
      (range K).

(** The matrix as the specification words it: entry [k, i] is the
    triangular weight of spectrogram bin [k], one of [K] evenly spaced
    frequencies from 0 to Nyquist mapped to mel, in the band whose edges
    are entries [i], [i + 1] and [i + 2] of [M + 2] evenly spaced mel
    values from [mel lo] to [mel hi], where
    [mel f = high_freq_q * ln (1 + f / break_freq)]. *)
Definition mel_matrix_spec (high_freq_q break_freq : R)
  (M K : Z) (nyquist lo hi : R) : list (list R) :=
  let mel f := high_freq_q * ln (1 + f / break_freq) in
  let spec_mel k := mel (0 + INR k * (nyquist - 0) / IZR (K - 1)) in
  let edge j := mel lo + INR j * (mel hi - mel lo) / IZR (M + 1) in
  map (fun k =>
         map (fun i =>
                Rmax 0 (Rmin ((spec_mel k - edge i) / (edge (i + 1)%nat - edge i))
                             ((edge (i + 2)%nat - spec_mel k)
                              / (edge (i + 2)%nat - edge (i + 1)%nat))))
             (seq 0 (Z.to_nat M)))
      (seq 0 (Z.to_nat K)).

(** The matrix after the first [j] passes of the loop: the first [j]
    columns are written and the others still hold what [np.empty] left. *)
Definition loop_matrix (uninit : R) (M : nat) (edges sm : list R) (j : nat)
  : list (list R) :=
  map (fun x => band_weights edges j x ++ repeat uninit (M - j)) sm.


(** [spectrogram_bins_mel[k]]: the mel value of spectrogram bin [k]. *)
Definition bin_mel (self : LogMelSpectrogramNp) (K sr : Z) (k : nat) : R :=
  hertz_to_mel self (evenly_spaced 0 (IZR sr / 2) K k).

(** [band_edges_mel[j]]: band edge [j] of the [M + 2] edges. *)
Definition band_edge (self : LogMelSpectrogramNp) (M : Z) (lo hi : R) (j : nat) : R :=
  evenly_spaced (hertz_to_mel self lo) (hertz_to_mel self hi) (M + 2) j.

(** The total weight that a bin of mel value [x] gets from the first
    [bands] triangular bands over the edges [e 0], [e 1], ... *)
Definition band_sum (e : nat -> R) (bands : nat) (x : R) : R :=
  Rsum (map (fun i => triangle_weight (e i) (e (S i)) (e (S (S i))) x)
            (seq 0 bands)).

(** The smallest power of two that is at least [w]. *)
Definition smallest_power_of_two_above (w p : Z) : Prop :=
  (exists k, (0 <= k)%Z /\ p = (2 ^ k)%Z) /\
  (w <= p)%Z /\
  (forall j, (0 <= j)%Z -> (w <= 2 ^ j)%Z -> (p <= 2 ^ j)%Z).

(** The module with the default arguments of [__init__]: 16 kHz audio,
    windows of 400 samples every 160 samples, a 512-point FFT. *)
Definition reference_module : LogMelSpectrogramNp :=
  {| window_length_samples := 400;
     hop_length_samples := 160;
     fft_length := 512;
     log_offset := 0.01;
     audio_sample_rate := 16000;
     num_mel_bins := 64;
     lower_edge_hertz := 125;
     upper_edge_hertz := 7500;
     mel_break_freq_hertz := 700;
     mel_high_freq_q := 1127 |}.

(** A module on a mel scale with unit constants, for small examples. *)
Definition unit_scale_module : LogMelSpectrogramNp :=
  {| window_length_samples := 2;
     hop_length_samples := 1;
     fft_length := 2;
     log_offset := 1;
     audio_sample_rate := 8;
     num_mel_bins := 1;
     lower_edge_hertz := 0;
     upper_edge_hertz := 3;
     mel_break_freq_hertz := 1;
     mel_high_freq_q := 1 |}.


(** Edge frequencies that pass the three checks. *)
Definition range_accepted (sr : Z) (lo hi : R) : Prop :=
  0 <= lo /\ lo < hi /\ hi <= IZR sr / 2.

(** ** Lemmas on [mapM] and on the strided view *)

Lemma mapM_ok_map (A B : Type) (f : A -> result B) (g : A -> B) (l : list A) :
  (forall a, In a l -> f a = Ok (g a)) -> mapM f l = Ok (map g l).
Proof.
  induction l as [|a l IH]; intros Hf; simpl.
  - reflexivity.
  - rewrite (Hf a (or_introl eq_refl)). simpl.
    rewrite IH by (intros b Hb; apply Hf; right; exact Hb).
    reflexivity.
Qed.

Lemma skipn_cons_nth_error (A : Type) (l : list A) (n : nat) (x : A) :
  nth_error l n = Some x -> skipn n l = x :: skipn (S n) l.
Proof.
  revert n. induction l as [|y l IH]; intros [|n] H; simpl in *; try discriminate.
  - injection H as ->. reflexivity.
  - apply IH. exact H.
Qed.

Lemma read_row (A : Type) (data : list A) (off : nat) :
  forall w s, (off + s + w <= length data)%nat ->
    mapM (fun j => read data (Z.of_nat off + Z.of_nat j * 1)%Z) (seq s w)
    = Ok (firstn w (skipn (off + s) data)).
Proof.
  induction w as [|w IH]; intros s Hle; simpl.
  - reflexivity.
  - unfold read at 1.
    replace (Z.of_nat off + Z.of_nat s * 1)%Z with (Z.of_nat (off + s)) by lia.
    destruct (Z.ltb_spec (Z.of_nat (off + s)) 0) as [Hneg|_]; [lia|].
    rewrite Nat2Z.id.
    destruct (nth_error data (off + s)) as [x|] eqn:Hx.
    + simpl. rewrite IH by lia. simpl.
      rewrite (skipn_cons_nth_error _ _ Hx). simpl.
      replace (off + S s)%nat with (S (off + s)) by lia. reflexivity.
    + apply nth_error_None in Hx. lia.
Qed.

(** With a positive window and hop and a signal at least one window
    long, every read of the strided view is inside the buffer. *)
Lemma frame_full_frames (A : Type) (data : list A) (W H : Z) :
  (0 < W)%Z -> (0 < H)%Z -> (W <= Z.of_nat (length data))%Z ->
  frame data W H
  = Ok (map (fun i => firstn (Z.to_nat W) (skipn (i * Z.to_nat H) data))
            (range (1 + (Z.of_nat (length data) - W) / H))).
Proof.
  intros HW HH HN.
  set (N := Z.of_nat (length data)) in *.
  set (nf := (1 + (N - W) / H)%Z).
  assert (Hq : (0 <= (N - W) / H)%Z) by (apply Z.div_pos; lia).
  assert (Hmul : (H * ((N - W) / H) <= N - W)%Z)
    by (apply Z.mul_div_le; lia).
  unfold frame. fold N. fold nf.
  destruct (Z.eqb_spec H 0) as [->|_]; [lia|].
  unfold as_strided.
  destruct (Z.ltb_spec nf 0) as [Hn|_]; [unfold nf in Hn; lia|].
  destruct (Z.ltb_spec W 0) as [Hn|_]; [lia|]. simpl.
  apply mapM_ok_map. intros i Hi.
  apply in_seq in Hi. destruct Hi as [_ Hi]. simpl in Hi.
  assert (Hi' : (Z.of_nat i < nf)%Z) by lia.
  replace (Z.of_nat i * H)%Z with (Z.of_nat (i * Z.to_nat H)) by lia.
  unfold range.
  rewrite (@read_row _ data (i * Z.to_nat H) (Z.to_nat W) 0%nat).
  - rewrite Nat.add_0_r. reflexivity.
  - apply Nat2Z.inj_le. rewrite !Nat2Z.inj_add, Nat2Z.inj_mul.
    rewrite !Z2Nat.id by lia. fold N. unfold nf in Hi'. nia.
Qed.

(** C2: for a signal of [N] samples and positive [W] and [H] with
    [N >= W], [frame] returns [1 + floor((N - W) / H)] rows, and row [i]
    is the [W] samples at positions [i*H .. i*H + W - 1]: nothing is
    padded and the samples after the last full frame are left out. *)
Theorem frame_rows (A : Type) (data : list A) (W H : Z) :
  (0 < W)%Z -> (0 < H)%Z -> (W <= Z.of_nat (length data))%Z ->
  exists rows,
    frame data W H = Ok rows /\
    Z.of_nat (length rows) = (1 + (Z.of_nat (length data) - W) / H)%Z /\
    (forall i, (i < length rows)%nat ->
       nth_error rows i
       = Some (firstn (Z.to_nat W) (skipn (i * Z.to_nat H) data))) /\
    (forall row, In row rows -> length row = Z.to_nat W).
Proof.
  intros HW HH HN.
  rewrite (frame_full_frames data HW HH HN).
  set (N := Z.of_nat (length data)) in *.
  set (nf := (1 + (N - W) / H)%Z).
  assert (Hq : (0 <= (N - W) / H)%Z) by (apply Z.div_pos; lia).
  assert (Hmul : (H * ((N - W) / H) <= N - W)%Z)
    by (apply Z.mul_div_le; lia).
  set (row := fun i : nat => firstn (Z.to_nat W) (skipn (i * Z.to_nat H) data)).
  exists (map row (range nf)). split; [reflexivity|].
  assert (Hlen : length (map row (range nf)) = Z.to_nat nf)
    by (unfold range; rewrite length_map, length_seq; reflexivity).
  split; [|split].
  - rewrite Hlen. rewrite Z2Nat.id by (unfold nf; lia). reflexivity.
  - intros i Hi. rewrite Hlen in Hi.
    rewrite nth_error_map. unfold range.
    rewrite nth_error_seq.
    destruct (Nat.ltb_spec i (Z.to_nat nf)) as [_|Hge]; [|lia].
    reflexivity.
  - intros r Hr. apply in_map_iff in Hr. destruct Hr as [i [<- Hi]].
    apply in_seq in Hi. destruct Hi as [_ Hi]. simpl in Hi.
    unfold row. rewrite length_firstn, length_skipn.
    apply Nat.min_l.
    apply Nat2Z.inj_le. rewrite Nat2Z.inj_sub.
    + rewrite Nat2Z.inj_mul, !Z2Nat.id by lia. fold N.
      assert (Z.of_nat i < nf)%Z by lia. unfold nf in *. nia.
    + apply Nat2Z.inj_le. rewrite Nat2Z.inj_mul, !Z2Nat.id by lia. fold N.
      assert (Z.of_nat i < nf)%Z by lia. unfold nf in *. nia.
Qed.

Lemma frame_rows_witness :
  exists rows,
    frame [10; 11; 12; 13; 14; 15; 16; 17; 18; 19]%Z 4 3 = Ok rows /\
    Z.of_nat (length rows) = 3%Z /\
    (forall i, (i < length rows)%nat ->
       nth_error rows i
       = Some (firstn 4 (skipn (i * 3)
                 [10; 11; 12; 13; 14; 15; 16; 17; 18; 19]%Z))) /\
    (forall row, In row rows -> length row = 4%nat).
Proof.
  apply (@frame_rows Z [10; 11; 12; 13; 14; 15; 16; 17; 18; 19]%Z 4 3);
    simpl; lia.
Defined.

(** The frames of ten samples with a window of four and a hop of three. *)
Example frame_10_4_3 :
  frame [10; 11; 12; 13; 14; 15; 16; 17; 18; 19]%Z 4 3
  = Ok [[10; 11; 12; 13]; [13; 14; 15; 16]; [16; 17; 18; 19]]%Z.
Proof. reflexivity. Qed.

(** A signal shorter than the window by at most one hop gives no frame. *)
Lemma frame_short_within_hop (A : Type) (data : list A) (W H : Z) :
  (0 < H)%Z -> (Z.of_nat (length data) < W <= Z.of_nat (length data) + H)%Z ->
  frame data W H = Ok [].
Proof.
  intros HH [Hlt Hle]. unfold frame.
  destruct (Z.eqb_spec H 0) as [->|_]; [lia|].
  replace ((Z.of_nat (length data) - W) / H)%Z with (-1)%Z.
  - unfold as_strided. simpl.
    destruct (Z.ltb_spec W 0) as [Hn|_]; [lia|]. reflexivity.
  - apply Z.div_unique with (r := (Z.of_nat (length data) - W + H)%Z); lia.
Qed.

(** A signal shorter than the window by more than one hop makes the frame
    count negative, and numpy refuses the negative dimension. *)
Lemma frame_short_beyond_hop (A : Type) (data : list A) (W H : Z) :
  (0 < H)%Z -> (Z.of_nat (length data) + H < W)%Z ->
  frame data W H = Raise NegativeDimensions.
Proof.
  intros HH Hlt. unfold frame.
  destruct (Z.eqb_spec H 0) as [->|_]; [lia|].
  assert (Hq : ((Z.of_nat (length data) - W) / H < -1)%Z)
    by (apply Z.div_lt_upper_bound; lia).
  unfold as_strided.
  destruct (Z.ltb_spec (1 + (Z.of_nat (length data) - W) / H) 0) as [_|Hn]; [|lia].
  reflexivity.
Qed.

(** C3, at a failing input: ten samples, a window of 25 and a hop of 10
    give [1 + floor(-15 / 10) = -1] frames, and the strided view raises
    instead of returning an empty frame matrix. *)
Theorem frame_shorter_than_window_raises :
  frame [0; 0; 0; 0; 0; 0; 0; 0; 0; 0]%Z 25 10 = Raise NegativeDimensions.
Proof. reflexivity. Qed.

(** ** The periodic Hann window *)

Lemma raised_cosine_bounds (t : R) : 0 <= 0.5 - 0.5 * cos t <= 1.
Proof. pose proof (COS_bound t) as [Hlo Hhi]. lra. Qed.

(** C5: for every integer [L > 1], [periodic_hann L] returns the [L]
    values [0.5 - 0.5 * cos (2 * PI * n / L)], [n = 0 .. L - 1]; the first
    one is exactly [0] and every one lies between [0] and [1]. *)
Theorem periodic_hann_values (L : Z) :
  (1 < L)%Z ->
  exists w,
    periodic_hann L = Ok w /\
    length w = Z.to_nat L /\
    (forall n, (n < Z.to_nat L)%nat ->
       nth_error w n = Some (0.5 - 0.5 * cos (2 * PI * INR n / IZR L))) /\
    nth_error w 0 = Some 0 /\
    Forall (fun x => 0 <= x <= 1) w.
Proof.
  intros HL. unfold periodic_hann.
  destruct (Z.eqb_spec L 0) as [->|_]; [lia|].
  assert (HLR : IZR L <> 0) by (apply not_0_IZR; lia).
  eexists. split; [reflexivity|]. unfold range.
  assert (Hnth : forall n, (n < Z.to_nat L)%nat ->
    nth_error (map (fun n => 0.5 - 0.5 * cos (2 * PI / IZR L * INR n))
                   (seq 0 (Z.to_nat L))) n
    = Some (0.5 - 0.5 * cos (2 * PI * INR n / IZR L))).
  { intros n Hn. rewrite nth_error_map, nth_error_seq.
    destruct (Nat.ltb_spec n (Z.to_nat L)) as [_|Hge]; [|lia]. simpl.
    replace (2 * PI / IZR L * INR n) with (2 * PI * INR n / IZR L)
      by (field; exact HLR).
    reflexivity. }
  split; [|split; [|split]].
  - rewrite length_map, length_seq. reflexivity.
  - exact Hnth.
  - rewrite Hnth by lia. f_equal. simpl INR.
    replace (2 * PI * 0 / IZR L) with 0 by (field; exact HLR).
    rewrite cos_0. lra.
  - apply Forall_forall. intros x Hx. apply in_map_iff in Hx.
    destruct Hx as [n [<- _]]. apply raised_cosine_bounds.
Qed.

Lemma periodic_hann_values_witness :
  exists w,
    periodic_hann 4 = Ok w /\
    length w = 4%nat /\
    (forall n, (n < 4)%nat ->
       nth_error w n = Some (0.5 - 0.5 * cos (2 * PI * INR n / 4))) /\
    nth_error w 0 = Some 0 /\
    Forall (fun x => 0 <= x <= 1) w.
Proof. apply (@periodic_hann_values 4%Z). lia. Defined.

(** ** [np.linspace] *)

Lemma removelast_map_seq (f : nat -> R) (n : nat) (b : R) :
  f n = b -> removelast (map f (seq 0 (S n))) ++ [b] = map f (seq 0 (S n)).
Proof.
  intros Hb. rewrite seq_S, map_app. simpl map at 2.
  rewrite removelast_last. simpl. rewrite Hb. reflexivity.
Qed.

Lemma linspace_evenly_spaced (start stop : R) (num : Z) :
  (0 <= num)%Z ->
  linspace start stop num = Ok (map (evenly_spaced start stop num) (range num)).
Proof.
  intros Hnum. unfold linspace.
  destruct (Z.ltb_spec num 0) as [Hn|_]; [lia|].
  destruct (Z.ltb_spec 0 (num - 1)) as [Hdiv|Hdiv].
  - (* two samples or more *)
    destruct (Z.ltb_spec 1 num) as [_|Hn]; [|lia].
    assert (HdivR : IZR (num - 1) <> 0) by (apply not_0_IZR; lia).
    assert (Hy : (if Req_dec_T ((stop - start) / IZR (num - 1)) 0
                  then map (fun i => INR i / IZR (num - 1) * (stop - start) + start)
                           (range num)
                  else map (fun i => INR i * ((stop - start) / IZR (num - 1)) + start)
                           (range num))
                 = map (evenly_spaced start stop num) (range num)).
    { destruct (Req_dec_T _ 0) as [_|_]; apply map_ext; intros i;
        unfold evenly_spaced; field; exact HdivR. }
    rewrite Hy. f_equal. unfold range.
    destruct (Z.to_nat num) as [|n] eqn:Hn; [lia|].
    apply removelast_map_seq. unfold evenly_spaced.
    rewrite INR_IZR_INZ. replace (Z.of_nat n) with (num - 1)%Z by lia.
    field. exact HdivR.
  - (* at most one sample *)
    destruct (Z.ltb_spec 1 num) as [Hn|_]; [lia|].
    f_equal. apply map_ext_in. intros i Hi.
    apply in_seq in Hi. assert (i = 0%nat) by lia. subst i.
    unfold evenly_spaced, Rdiv. simpl INR. ring.
Qed.

Lemma nth_map_seq (f : nat -> R) (n i : nat) :
  (i < n)%nat -> nth i (map f (seq 0 n)) 0 = f i.
Proof.
  intros Hi. rewrite (nth_indep _ 0 (f 0%nat)) by (rewrite length_map, length_seq; exact Hi).
  rewrite map_nth. rewrite seq_nth by exact Hi. reflexivity.
Qed.

(** ** The loop of [spectrogram_to_mel_matrix] *)

Lemma set_nth_app (A : Type) (p r : list A) (u v : A) :
  set_nth (length p) v (p ++ u :: r) = p ++ v :: r.
Proof. induction p as [|a p IH]; simpl; [reflexivity|]. rewrite IH. reflexivity. Qed.

Lemma combine_map_same (A B C : Type) (g : A -> B) (h : A -> C) (l : list A) :
  combine (map g l) (map h l) = map (fun x => (g x, h x)) l.
Proof. induction l as [|a l IH]; simpl; [reflexivity|]. rewrite IH. reflexivity. Qed.

Lemma repeat_as_map (A B : Type) (c : B) (l : list A) :
  repeat c (length l) = map (fun _ => c) l.
Proof. induction l as [|a l IH]; simpl; [reflexivity|]. rewrite IH. reflexivity. Qed.

Lemma band_weights_length (edges : list R) (j : nat) (x : R) :
  length (band_weights edges j x) = j.
Proof. unfold band_weights. rewrite length_map, length_seq. reflexivity. Qed.

Lemma band_weights_S (edges : list R) (j : nat) (x : R) :
  band_weights edges (S j) x
  = band_weights edges j x
    ++ [triangle_weight (nth j edges 0) (nth (S j) edges 0) (nth (S (S j)) edges 0) x].
Proof. unfold band_weights. rewrite seq_S, map_app. reflexivity. Qed.

Lemma firstn3_skipn (edges : list R) (i : nat) :
  (i + 3 <= length edges)%nat ->
  firstn 3 (skipn i edges)
  = [nth i edges 0; nth (S i) edges 0; nth (S (S i)) edges 0].
Proof.
  revert i. induction edges as [|e edges IH]; intros i Hi; simpl in Hi; [lia|].
  destruct i as [|i].
  - simpl. destruct edges as [|e1 [|e2 edges]]; simpl in Hi; try lia. reflexivity.
  - simpl skipn. rewrite IH by lia. reflexivity.
Qed.

Section FilterbankLoop.

Variable uninit : R.
Variable M : nat.
Variables edges sm : list R.
Hypothesis edges_length : (M + 2 <= length edges)%nat.


Lemma fill_band_step (j : nat) :
  (j < M)%nat ->
  fill_band (Z.of_nat M) edges sm j (loop_matrix uninit M edges sm j) = Ok (loop_matrix uninit M edges sm (S j)).
Proof.
  intros Hj. unfold fill_band.
  rewrite firstn3_skipn by lia.
  unfold set_column.
  destruct (Z.ltb_spec (Z.of_nat j) (Z.of_nat M)) as [_|Hge]; [|lia].
  unfold loop_matrix. rewrite combine_map_same, map_map. f_equal.
  apply map_ext. intros x. simpl fst. simpl snd.
  replace (M - j)%nat with (S (M - S j)) by lia. simpl repeat.
  rewrite <- (band_weights_length edges j x) at 1.
  rewrite set_nth_app, band_weights_S, <- app_assoc. reflexivity.
Qed.

Lemma fill_bands_from (n : nat) :
  forall j, (j + n <= M)%nat ->
    fill_bands (Z.of_nat M) edges sm (seq j n) (loop_matrix uninit M edges sm j)
    = Ok (loop_matrix uninit M edges sm (j + n)).
Proof.
  induction n as [|n IH]; intros j Hj; simpl.
  - rewrite Nat.add_0_r. reflexivity.
  - rewrite fill_band_step by lia. simpl.
    rewrite IH by lia. f_equal. f_equal. lia.
Qed.

Lemma fill_bands_all :
  fill_bands (Z.of_nat M) edges sm (seq 0 M)
             (repeat (repeat uninit M) (length sm))
  = Ok (map (band_weights edges M) sm).
Proof.
  replace (repeat (repeat uninit M) (length sm)) with (loop_matrix uninit M edges sm 0).
  - rewrite fill_bands_from by lia. f_equal. unfold loop_matrix.
    apply map_ext. intros x. simpl. rewrite Nat.sub_diag. apply app_nil_r.
  - unfold loop_matrix. rewrite repeat_as_map. apply map_ext.
    intros x. simpl. rewrite Nat.sub_0_r. reflexivity.
Qed.

End FilterbankLoop.

(** ** [spectrogram_to_mel_matrix], outcome by outcome *)

Lemma map_const_repeat (A : Type) (l : list A) :
  map (fun _ => 0) l = repeat 0 (length l).
Proof. induction l as [|a l IH]; simpl; [reflexivity|]. rewrite IH. reflexivity. Qed.

(** Every way [spectrogram_to_mel_matrix] can end, in source order: the
    three range checks, a negative bin count refused by [np.linspace],
    the zero break frequency, a negative band count refused by
    [np.linspace] or [np.empty], the missing row 0 of a matrix without
    rows, and the matrix. *)
Lemma spectrogram_to_mel_matrix_cases (uninit : R) (self : LogMelSpectrogramNp)
  (M K sr : Z) (lo hi : R) :
  spectrogram_to_mel_matrix uninit self M K sr lo hi
  = if Rlt_dec lo 0 then Raise (InvalidRange LowerNegative)
    else if Rge_dec lo hi then Raise (InvalidRange LowerNotBelowUpper)
    else if Rgt_dec hi (IZR sr / 2) then Raise (InvalidRange UpperAboveNyquist)
    else if (K <? 0)%Z then Raise NegativeDimensions
    else if Req_dec_T (mel_break_freq_hertz self) 0 then Raise ZeroDivisionError
    else if (M <? 0)%Z then Raise NegativeDimensions
    else if (K =? 0)%Z then Raise IndexError
    else Ok (repeat 0 (Z.to_nat M) :: tl (triangle_rows self M K sr lo hi)).
Proof.
  unfold spectrogram_to_mel_matrix.
  destruct (Rlt_dec lo 0) as [|_]; [reflexivity|].
  destruct (Rge_dec lo hi) as [|_]; [reflexivity|].
  destruct (Rgt_dec hi (IZR sr / 2)) as [|_]; [reflexivity|].
  destruct (Z.ltb_spec K 0) as [HK|HK].
  { unfold linspace. destruct (Z.ltb_spec K 0) as [_|]; [reflexivity|lia]. }
  rewrite linspace_evenly_spaced by exact HK. simpl bind.
  unfold hertz_to_mel_scalar.
  destruct (Req_dec_T (mel_break_freq_hertz self) 0) as [|_]; [reflexivity|].
  simpl bind.
  destruct (Z.ltb_spec M 0) as [HM|HM].
  { destruct (Z.ltb_spec (M + 2) 0) as [HM2|HM2].
    - unfold linspace. destruct (Z.ltb_spec (M + 2) 0) as [_|]; [reflexivity|lia].
    - rewrite linspace_evenly_spaced by exact HM2. simpl bind.
      unfold np_empty.
      destruct (Z.ltb_spec K 0) as [|_]; [lia|].
      destruct (Z.ltb_spec M 0) as [_|]; [reflexivity|lia]. }
  rewrite linspace_evenly_spaced by lia. simpl bind.
  unfold np_empty.
  destruct (Z.ltb_spec K 0) as [|_]; [lia|].
  destruct (Z.ltb_spec M 0) as [|_]; [lia|]. simpl bind.
  set (edges := map (evenly_spaced (hertz_to_mel self lo) (hertz_to_mel self hi) (M + 2))
                    (range (M + 2))).
  set (sm := map (hertz_to_mel self) (map (evenly_spaced 0 (IZR sr / 2) K) (range K))).
  assert (Hsm : length sm = Z.to_nat K)
    by (unfold sm, range; rewrite !length_map, length_seq; reflexivity).
  assert (Hedges : (Z.to_nat M + 2 <= length edges)%nat)
    by (unfold edges, range; rewrite length_map, length_seq; lia).
  rewrite <- Hsm. unfold range at 1.
  rewrite <- (Z2Nat.id M) at 1 by exact HM.
  rewrite (@fill_bands_all uninit (Z.to_nat M) edges sm Hedges). simpl bind.
  assert (Hrows : map (band_weights edges (Z.to_nat M)) sm = triangle_rows self M K sr lo hi)
    by (unfold triangle_rows, sm; rewrite !map_map; reflexivity).
  rewrite Hrows. clear Hrows Hsm. clearbody sm.
  unfold triangle_rows. fold edges. unfold range.
  destruct (Z.eqb_spec K 0) as [->|HK0].
  - reflexivity.
  - destruct (Z.to_nat K) as [|k] eqn:Hk; [lia|].
    simpl. rewrite map_const_repeat, band_weights_length. reflexivity.
Qed.

(** ** Band edges and triangular weights *)

Lemma band_edge_nth (a b : R) (M : Z) (i : nat) :
  (0 <= M)%Z -> (i < Z.to_nat M + 2)%nat ->
  nth i (map (evenly_spaced a b (M + 2)) (range (M + 2))) 0
  = a + INR i * (b - a) / IZR (M + 1).
Proof.
  intros HM Hi. unfold range. rewrite nth_map_seq by lia.
  unfold evenly_spaced. replace (M + 2 - 1)%Z with (M + 1)%Z by lia. reflexivity.
Qed.

Lemma band_edge_increasing (a b : R) (M : Z) (i : nat) :
  (0 <= M)%Z -> a < b ->
  a + INR i * (b - a) / IZR (M + 1) < a + INR (S i) * (b - a) / IZR (M + 1).
Proof.
  intros HM Hab. rewrite S_INR.
  assert (HM1 : 0 < IZR (M + 1)) by (apply IZR_lt; lia).
  assert (Hstep : 0 < (b - a) / IZR (M + 1))
    by (apply Rdiv_lt_0_compat; lra).
  unfold Rdiv in *. nra.
Qed.

Lemma triangle_weight_nonneg (l c u x : R) : 0 <= triangle_weight l c u x.
Proof. unfold triangle_weight. apply Rmax_l. Qed.

Lemma triangle_weight_le_1 (l c u x : R) :
  l < c -> c < u -> triangle_weight l c u x <= 1.
Proof.
  intros Hlc Hcu. unfold triangle_weight. apply Rmax_lub; [lra|].
  destruct (Rle_lt_dec x c) as [Hx|Hx].
  - eapply Rle_trans; [apply Rmin_l|].
    apply (Rmult_le_reg_r (c - l)); [lra|].
    unfold Rdiv. rewrite Rmult_assoc, Rinv_l by lra. lra.
  - eapply Rle_trans; [apply Rmin_r|].
    apply (Rmult_le_reg_r (u - c)); [lra|].
    unfold Rdiv. rewrite Rmult_assoc, Rinv_l by lra. lra.
Qed.

(** A bin at or below the lower edge of a band has no weight in it. *)
Lemma triangle_weight_below (l c u x : R) :
  l < c -> x <= l -> triangle_weight l c u x = 0.
Proof.
  intros Hlc Hx. unfold triangle_weight.
  apply Rmax_left. eapply Rle_trans; [apply Rmin_l|].
  apply (Rmult_le_reg_r (c - l)); [lra|].
  unfold Rdiv. rewrite Rmult_assoc, Rinv_l by lra. lra.
Qed.

(** The same with the edges in descending order, as a negative
    [mel_high_freq_q] lays them out: a bin at or above the first edge. *)
Lemma triangle_weight_above (l c u x : R) :
  c < l -> l <= x -> triangle_weight l c u x = 0.
Proof.
  intros Hcl Hx. unfold triangle_weight.
  apply Rmax_left. eapply Rle_trans; [apply Rmin_l|].
  replace ((x - l) / (c - l)) with (- ((x - l) / (l - c))) by (field; lra).
  assert (0 <= (x - l) / (l - c)).
  { unfold Rdiv. apply Rmult_le_pos; [lra|].
    left. apply Rinv_0_lt_compat. lra. }
  lra.
Qed.

Lemma band_edge_decreasing (a b : R) (M : Z) (i : nat) :
  (0 <= M)%Z -> b < a ->
  a + INR (S i) * (b - a) / IZR (M + 1) < a + INR i * (b - a) / IZR (M + 1).
Proof.
  intros HM Hab. rewrite S_INR.
  assert (HM1 : 0 < IZR (M + 1)) by (apply IZR_lt; lia).
  assert (Hstep : 0 < (a - b) / IZR (M + 1))
    by (apply Rdiv_lt_0_compat; lra).
  unfold Rdiv in *. nra.
Qed.

Lemma band_edge_from_upper (a b : R) (M : Z) (i : nat) :
  (0 <= M)%Z -> b < a -> a + INR i * (b - a) / IZR (M + 1) <= a.
Proof.
  intros HM Hab.
  assert (HM1 : 0 < IZR (M + 1)) by (apply IZR_lt; lia).
  assert (Hstep : 0 < (a - b) / IZR (M + 1)) by (apply Rdiv_lt_0_compat; lra).
  pose proof (pos_INR i) as Hi. unfold Rdiv in *. nra.
Qed.

Lemma band_edge_from_lower (a b : R) (M : Z) (i : nat) :
  (0 <= M)%Z -> a < b -> a <= a + INR i * (b - a) / IZR (M + 1).
Proof.
  intros HM Hab.
  assert (HM1 : 0 < IZR (M + 1)) by (apply IZR_lt; lia).
  assert (Hstep : 0 < (b - a) / IZR (M + 1)) by (apply Rdiv_lt_0_compat; lra).
  pose proof (pos_INR i) as Hi. unfold Rdiv in *. nra.
Qed.

Section MelScale.

Variable self : LogMelSpectrogramNp.
Hypothesis break_pos : 0 < mel_break_freq_hertz self.
Hypothesis q_pos : 0 < mel_high_freq_q self.

Lemma hertz_to_mel_0 : hertz_to_mel self 0 = 0.
Proof.
  unfold hertz_to_mel. unfold Rdiv. rewrite Rmult_0_l, Rplus_0_r, ln_1. ring.
Qed.

Lemma hertz_to_mel_increasing (f g : R) :
  0 <= f -> f < g -> hertz_to_mel self f < hertz_to_mel self g.
Proof.
  intros Hf Hfg. unfold hertz_to_mel.
  apply Rmult_lt_compat_l; [exact q_pos|].
  assert (Hinv : 0 < / mel_break_freq_hertz self) by (apply Rinv_0_lt_compat; exact break_pos).
  apply ln_increasing; unfold Rdiv; nra.
Qed.

Lemma hertz_to_mel_nonneg (f : R) : 0 <= f -> 0 <= hertz_to_mel self f.
Proof.
  intros [Hf|<-].
  - rewrite <- hertz_to_mel_0. left. apply hertz_to_mel_increasing; lra.
  - rewrite hertz_to_mel_0. lra.
Qed.

End MelScale.

Section MelScaleReversed.

Variable self : LogMelSpectrogramNp.
Hypothesis break_pos : 0 < mel_break_freq_hertz self.
Hypothesis q_neg : mel_high_freq_q self < 0.

Lemma hertz_to_mel_decreasing (f g : R) :
  0 <= f -> f < g -> hertz_to_mel self g < hertz_to_mel self f.
Proof.
  intros Hf Hfg. unfold hertz_to_mel.
  assert (Hinv : 0 < / mel_break_freq_hertz self)
    by (apply Rinv_0_lt_compat; exact break_pos).
  assert (Hln : ln (1 + f / mel_break_freq_hertz self)
                < ln (1 + g / mel_break_freq_hertz self))
    by (apply ln_increasing; unfold Rdiv; nra).
  nra.
Qed.

Lemma hertz_to_mel_nonpos (f : R) : 0 <= f -> hertz_to_mel self f <= 0.
Proof.
  intros [Hf|Hf].
  - rewrite <- (hertz_to_mel_0 self). left. apply hertz_to_mel_decreasing; lra.
  - rewrite <- Hf, hertz_to_mel_0. lra.
Qed.

End MelScaleReversed.

(** ** Validation of the edge frequencies *)


Lemma mel_matrix_accepted (uninit : R) (self : LogMelSpectrogramNp)
  (M K sr : Z) (lo hi : R) :
  range_accepted sr lo hi ->
  spectrogram_to_mel_matrix uninit self M K sr lo hi
  = if (K <? 0)%Z then Raise NegativeDimensions
    else if Req_dec_T (mel_break_freq_hertz self) 0 then Raise ZeroDivisionError
    else if (M <? 0)%Z then Raise NegativeDimensions
    else if (K =? 0)%Z then Raise IndexError
    else Ok (repeat 0 (Z.to_nat M) :: tl (triangle_rows self M K sr lo hi)).
Proof.
  intros (H0 & H1 & H2). rewrite spectrogram_to_mel_matrix_cases.
  destruct (Rlt_dec lo 0) as [|_]; [lra|].
  destruct (Rge_dec lo hi) as [|_]; [lra|].
  destruct (Rgt_dec hi (IZR sr / 2)) as [|_]; [lra|].
  reflexivity.
Qed.

Lemma mel_matrix_returns (uninit : R) (self : LogMelSpectrogramNp)
  (M K sr : Z) (lo hi : R) :
  range_accepted sr lo hi ->
  (1 <= K)%Z -> (0 <= M)%Z -> mel_break_freq_hertz self <> 0 ->
  spectrogram_to_mel_matrix uninit self M K sr lo hi
  = Ok (repeat 0 (Z.to_nat M) :: tl (triangle_rows self M K sr lo hi)).
Proof.
  intros Hr HK HM Hb. rewrite mel_matrix_accepted by exact Hr.
  destruct (Z.ltb_spec K 0) as [|_]; [lia|].
  destruct (Req_dec_T (mel_break_freq_hertz self) 0) as [|_]; [contradiction|].
  destruct (Z.ltb_spec M 0) as [|_]; [lia|].
  destruct (Z.eqb_spec K 0) as [|_]; [lia|].
  reflexivity.
Qed.

Lemma mel_matrix_returned (uninit : R) (self : LogMelSpectrogramNp)
  (M K sr : Z) (lo hi : R) (m : list (list R)) :
  spectrogram_to_mel_matrix uninit self M K sr lo hi = Ok m ->
  m = repeat 0 (Z.to_nat M) :: tl (triangle_rows self M K sr lo hi) /\
  range_accepted sr lo hi /\
  (1 <= K)%Z /\ (0 <= M)%Z /\ mel_break_freq_hertz self <> 0.
Proof.
  rewrite spectrogram_to_mel_matrix_cases.
  destruct (Rlt_dec lo 0) as [|H0]; [discriminate|].
  destruct (Rge_dec lo hi) as [|H1]; [discriminate|].
  destruct (Rgt_dec hi (IZR sr / 2)) as [|H2]; [discriminate|].
  destruct (Z.ltb_spec K 0) as [|HK]; [discriminate|].
  destruct (Req_dec_T (mel_break_freq_hertz self) 0) as [|Hb]; [discriminate|].
  destruct (Z.ltb_spec M 0) as [|HM]; [discriminate|].
  destruct (Z.eqb_spec K 0) as [|HK0]; [discriminate|].
  intros H. injection H as <-.
  unfold range_accepted. repeat split; try lra; lia.
Qed.


Lemma reference_range_accepted : range_accepted 8000 125 3800.
Proof. unfold range_accepted. lra. Qed.



(** ** The DC row *)



(** ** Bounds on the weights *)

Lemma In_tl (A : Type) (l : list A) (x : A) : In x (tl l) -> In x l.
Proof. destruct l as [|a l]; simpl; [tauto|]. intros H; right; exact H. Qed.

Lemma triangle_rows_nonneg (self : LogMelSpectrogramNp) (M K sr : Z) (lo hi : R)
  (row : list R) (w : R) :
  In row (triangle_rows self M K sr lo hi) -> In w row -> 0 <= w.
Proof.
  unfold triangle_rows. intros Hrow Hw.
  apply in_map_iff in Hrow. destruct Hrow as [k [<- _]].
  unfold band_weights in Hw. apply in_map_iff in Hw.
  destruct Hw as [i [<- _]]. apply triangle_weight_nonneg.
Qed.

Lemma triangle_rows_le_1 (self : LogMelSpectrogramNp) (M K sr : Z) (lo hi : R)
  (row : list R) (w : R) :
  (0 <= M)%Z -> hertz_to_mel self lo < hertz_to_mel self hi ->
  In row (triangle_rows self M K sr lo hi) -> In w row -> w <= 1.
Proof.
  unfold triangle_rows. intros HM Hmel Hrow Hw.
  apply in_map_iff in Hrow. destruct Hrow as [k [<- _]].
  unfold band_weights in Hw. apply in_map_iff in Hw.
  destruct Hw as [i [<- Hi]]. apply in_seq in Hi.
  rewrite !band_edge_nth by lia.
  apply triangle_weight_le_1; apply band_edge_increasing; assumption.
Qed.

(** C10: for edge frequencies that pass validation, at least one mel
    bin and positive mel-scale constants, [hertz_to_mel] is strictly
    increasing on the non-negative frequencies, the [M + 2] band edges are
    strictly increasing, and every entry of the returned matrix lies
    between [0] and [1].  (A matrix is returned whenever there is at
    least one spectrogram bin.) *)
Theorem mel_weights_in_unit_interval (uninit : R) (self : LogMelSpectrogramNp)
  (M K sr : Z) (lo hi : R) :
  range_accepted sr lo hi -> (1 <= M)%Z ->
  0 < mel_break_freq_hertz self -> 0 < mel_high_freq_q self ->
  (forall f g, 0 <= f -> f < g -> hertz_to_mel self f < hertz_to_mel self g) /\
  (exists edges,
     linspace (hertz_to_mel self lo) (hertz_to_mel self hi) (M + 2) = Ok edges /\
     length edges = (Z.to_nat M + 2)%nat /\
     forall i, (i < Z.to_nat M + 1)%nat -> nth i edges 0 < nth (S i) edges 0) /\
  ((1 <= K)%Z ->
   exists m, spectrogram_to_mel_matrix uninit self M K sr lo hi = Ok m) /\
  (forall m, spectrogram_to_mel_matrix uninit self M K sr lo hi = Ok m ->
     Forall (Forall (fun w => 0 <= w <= 1)) m).
Proof.
  intros Hr HM Hb Hq.
  assert (Hmel : hertz_to_mel self lo < hertz_to_mel self hi).
  { destruct Hr as (H0 & H1 & _). apply hertz_to_mel_increasing; assumption. }
  split; [|split; [|split]].
  - intros f g. apply hertz_to_mel_increasing; assumption.
  - eexists. split; [apply linspace_evenly_spaced; lia|]. split.
    + unfold range. rewrite length_map, length_seq. lia.
    + intros i Hi. rewrite !band_edge_nth by lia.
      apply band_edge_increasing; [lia|exact Hmel].
  - intros HK. eexists. apply mel_matrix_returns; [exact Hr|lia|lia|lra].
  - intros m Hm. apply mel_matrix_returned in Hm. destruct Hm as [-> _].
    constructor.
    + apply Forall_forall. intros w Hw. apply repeat_spec in Hw. lra.
    + apply Forall_forall. intros row Hrow. apply In_tl in Hrow.
      apply Forall_forall. intros w Hw. split.
      * eapply triangle_rows_nonneg; eassumption.
      * eapply triangle_rows_le_1; [| |eassumption|eassumption]; [lia|exact Hmel].
Qed.

Lemma mel_weights_in_unit_interval_witness :
  (forall f g, 0 <= f -> f < g ->
     hertz_to_mel reference_module f < hertz_to_mel reference_module g) /\
  (exists edges,
     linspace (hertz_to_mel reference_module 125)
              (hertz_to_mel reference_module 3800) (20 + 2) = Ok edges /\
     length edges = (Z.to_nat 20 + 2)%nat /\
     forall i, (i < Z.to_nat 20 + 1)%nat -> nth i edges 0 < nth (S i) edges 0) /\
  ((1 <= 129)%Z ->
   exists m, spectrogram_to_mel_matrix 0 reference_module 20 129 8000 125 3800 = Ok m) /\
  (forall m, spectrogram_to_mel_matrix 0 reference_module 20 129 8000 125 3800 = Ok m ->
     Forall (Forall (fun w => 0 <= w <= 1)) m).
Proof.
  apply (@mel_weights_in_unit_interval 0 reference_module 20 129 8000 125 3800).
  - exact reference_range_accepted.
  - lia.
  - simpl. lra.
  - simpl. lra.
Defined.

(** ** The matrix against its specification *)

Lemma map_all_zero (A : Type) (f : A -> R) (l : list A) :
  (forall a, In a l -> f a = 0) -> map f l = repeat 0 (length l).
Proof.
  induction l as [|a l IH]; intros Hf; simpl; [reflexivity|].
  rewrite (Hf a (or_introl eq_refl)).
  rewrite IH by (intros b Hb; apply Hf; right; exact Hb). reflexivity.
Qed.

(** With a positive break frequency and a non-zero [mel_high_freq_q] the
    triangular formula gives the DC bin, whose mel value is 0, no weight
    in any band: the band edges all lie on one side of 0. *)
Lemma dc_weight_by_formula (self : LogMelSpectrogramNp) (M : Z) (lo hi : R) (i : nat) :
  0 < mel_break_freq_hertz self -> mel_high_freq_q self <> 0 ->
  0 <= lo -> lo < hi -> (0 <= M)%Z ->
  let edge j := hertz_to_mel self lo
                + INR j * (hertz_to_mel self hi - hertz_to_mel self lo) / IZR (M + 1) in
  triangle_weight (edge i) (edge (S i)) (edge (S (S i))) 0 = 0.
Proof.
  intros Hb Hq Hlo Hlohi HM edge. unfold edge.
  destruct (Rlt_dec 0 (mel_high_freq_q self)) as [Hpos|Hneg].
  - assert (Hmel : hertz_to_mel self lo < hertz_to_mel self hi)
      by (apply hertz_to_mel_increasing; assumption).
    apply triangle_weight_below.
    + apply band_edge_increasing; assumption.
    + eapply Rle_trans; [apply (hertz_to_mel_nonneg self Hb Hpos Hlo)|].
      apply band_edge_from_lower; assumption.
  - assert (Hq' : mel_high_freq_q self < 0) by lra.
    assert (Hmel : hertz_to_mel self hi < hertz_to_mel self lo)
      by (apply hertz_to_mel_decreasing; assumption).
    apply triangle_weight_above.
    + apply band_edge_decreasing; assumption.
    + eapply Rle_trans; [apply band_edge_from_upper; assumption|].
      apply hertz_to_mel_nonpos; assumption.
Qed.

(** C1, as the code has it: for edge frequencies that pass validation,
    [M >= 1], at least one spectrogram bin, a positive break frequency
    and a non-zero [mel_high_freq_q], [spectrogram_to_mel_matrix] returns
    the [K] by [M] matrix of the specification: bin [k] is the [k]-th of
    [K] evenly spaced frequencies from 0 to Nyquist mapped to mel, the
    band edges are [M + 2] evenly spaced mel values from [mel lo] to
    [mel hi], and entry [k, i] is [max 0 (min lower_slope upper_slope)]
    over edges [i], [i + 1], [i + 2]. *)
Theorem mel_matrix_meets_spec (uninit : R) (self : LogMelSpectrogramNp)
  (M K sr : Z) (lo hi : R) :
  range_accepted sr lo hi -> (1 <= M)%Z -> (1 <= K)%Z ->
  0 < mel_break_freq_hertz self -> mel_high_freq_q self <> 0 ->
  exists m,
    spectrogram_to_mel_matrix uninit self M K sr lo hi = Ok m /\
    m = mel_matrix_spec (mel_high_freq_q self) (mel_break_freq_hertz self)
                        M K (IZR sr / 2) lo hi /\
    length m = Z.to_nat K /\
    (forall row, In row m -> length row = Z.to_nat M).
Proof.
  intros Hr HM HK Hb Hq.
  eexists. split; [apply mel_matrix_returns; [exact Hr|lia|lia|lra]|].
  split.
  - unfold mel_matrix_spec, triangle_rows, range.
    destruct (Z.to_nat K) as [|k] eqn:Hk; [lia|].
    cbn [seq map tl]. f_equal.
    + (* the DC row: the formula gives zero there as well *)
      symmetry.
      transitivity (repeat 0 (length (seq 0 (Z.to_nat M))));
        [|rewrite length_seq; reflexivity].
      apply map_all_zero. intros i Hi.
      replace (0 + INR 0 * (IZR sr / 2 - 0) / IZR (K - 1)) with 0
        by (simpl INR; unfold Rdiv; ring).
      fold (hertz_to_mel self 0). rewrite hertz_to_mel_0.
      fold (hertz_to_mel self lo). fold (hertz_to_mel self hi).
      replace (i + 1)%nat with (S i) by lia.
      replace (i + 2)%nat with (S (S i)) by lia.
      destruct Hr as (H0 & H1 & _).
      apply (@dc_weight_by_formula self M lo hi i); try assumption. lia.
    + (* the other rows are the formula's *)
      apply map_ext_in. intros j _.
      unfold band_weights. apply map_ext_in. intros i Hi. apply in_seq in Hi.
      rewrite !band_edge_nth by lia.
      unfold triangle_weight, hertz_to_mel, evenly_spaced.
      replace (i + 1)%nat with (S i) by lia.
      replace (i + 2)%nat with (S (S i)) by lia.
      reflexivity.
  - split.
    + simpl. unfold triangle_rows, range.
      destruct (Z.to_nat K) as [|k] eqn:Hk; [lia|].
      cbn [seq map tl]. rewrite length_map, length_seq. reflexivity.
    + intros row [<-|Hrow].
      * apply repeat_length.
      * apply In_tl in Hrow. unfold triangle_rows in Hrow.
        apply in_map_iff in Hrow. destruct Hrow as [k [<- _]].
        apply band_weights_length.
Qed.

Lemma mel_matrix_meets_spec_witness :
  exists m,
    spectrogram_to_mel_matrix 0 reference_module 20 129 8000 125 3800 = Ok m /\
    m = mel_matrix_spec 1127 700 20 129 (8000 / 2) 125 3800 /\
    length m = 129%nat /\
    (forall row, In row m -> length row = 20%nat).
Proof.
  apply (@mel_matrix_meets_spec 0 reference_module 20 129 8000 125 3800).
  - exact reference_range_accepted.
  - lia.
  - lia.
  - simpl. lra.
  - simpl. lra.
Defined.

(** C1 does not hold for every bin count: with edge frequencies that
    pass validation and twenty mel bins but no spectrogram bin, the matrix
    of the specification (no rows) is not returned: the assignment to
    row 0 raises IndexError. *)
Lemma mel_matrix_without_bins_raises :
  range_accepted 8000 125 3800 /\ (1 <= 20)%Z /\
  spectrogram_to_mel_matrix 0 reference_module 20 0 8000 125 3800
  = Raise IndexError /\
  spectrogram_to_mel_matrix 0 reference_module 20 0 8000 125 3800
  <> Ok (mel_matrix_spec 1127 700 20 0 (8000 / 2) 125 3800).
Proof.
  assert (H : spectrogram_to_mel_matrix 0 reference_module 20 0 8000 125 3800
              = Raise IndexError).
  { rewrite mel_matrix_accepted by exact reference_range_accepted.
    simpl. destruct (Req_dec_T 700 0) as [Hb|_]; [lra|]. reflexivity. }
  split; [exact reference_range_accepted|].
  split; [lia|].
  split; [exact H|].
  rewrite H. discriminate.
Qed.

(** ** The squeeze at the head of [forward] *)




(** ** The argument of the logarithm *)

Lemma Rsum_nonneg (l : list R) : (forall x, In x l -> 0 <= x) -> 0 <= Rsum l.
Proof.
  induction l as [|a l IH]; intros H; simpl.
  - lra.
  - assert (0 <= a) by (apply H; left; reflexivity).
    assert (0 <= Rsum l) by (apply IH; intros x Hx; apply H; right; exact Hx).
    lra.
Qed.







(** [forward] returns on a batch of one signal that holds at least one
    window, for a module whose lengths are positive and whose filterbank
    parameters are accepted. *)
Lemma forward_returns (uninit : R) (self : LogMelSpectrogramNp)
  (n : nat) (signal : list R) :
  (0 < window_length_samples self)%Z ->
  (0 < hop_length_samples self)%Z ->
  (window_length_samples self <= Z.of_nat (length signal))%Z ->
  (1 <= fft_length self)%Z ->
  range_accepted (audio_sample_rate self) (lower_edge_hertz self) (upper_edge_hertz self) ->
  (0 <= num_mel_bins self)%Z ->
  mel_break_freq_hertz self <> 0 ->
  exists out, forward uninit self {| shape := [1%nat; n]; values := signal |} = Ok out.
Proof.
  intros HW HH HN Hfft Hr HM Hb.
  unfold forward, mel_plus_offset, squeeze_axis0. simpl.
  unfold stft_magnitude.
  rewrite (frame_full_frames signal HW HH HN). simpl.
  unfold periodic_hann.
  destruct (Z.eqb_spec (window_length_samples self) 0) as [|_]; [lia|]. simpl.
  unfold rfft_magnitude.
  destruct (Z.ltb_spec (fft_length self) 1) as [|_]; [lia|]. simpl.
  rewrite mel_matrix_returns; [|exact Hr| |exact HM|exact Hb].
  - simpl. eexists. reflexivity.
  - assert (0 <= fft_length self / 2)%Z by (apply Z.div_pos; lia). lia.
Qed.


(** ** Window length and FFT length *)

Lemma py_round_integer (z : Z) : py_round (IZR z) = z.
Proof.
  unfold py_round. rewrite ZfloorZ.
  destruct (Rlt_dec (IZR z - IZR z) (1 / 2)) as [_|H]; [reflexivity|lra].
Qed.

Lemma py_round_below_half (x : R) : 0 <= x < 1 / 2 -> py_round x = 0%Z.
Proof.
  intros Hx. unfold py_round.
  assert (Hf : Zfloor x = 0%Z) by (apply Zfloor_eq; simpl; lra).
  rewrite Hf. simpl IZR.
  destruct (Rlt_dec (x - 0) (1 / 2)) as [_|H]; [reflexivity|lra].
Qed.

Lemma ln_2_pos : 0 < ln 2.
Proof. pose proof ln_lt_2. lra. Qed.

Lemma ln_power_of_two (n : nat) : ln (IZR (2 ^ Z.of_nat n)) = INR n * ln 2.
Proof. rewrite <- pow_IZR. apply ln_pow. lra. Qed.

Lemma ln_le_mono (x y : R) : 0 < x -> x <= y -> ln x <= ln y.
Proof.
  intros Hx [Hlt|Heq]; [left; apply ln_increasing; assumption|].
  rewrite Heq. apply Rle_refl.
Qed.

Lemma ln_le_reflect (x y : R) : 0 < x -> 0 < y -> ln x <= ln y -> x <= y.
Proof.
  intros Hx Hy Hln. destruct (Rle_lt_dec x y) as [H|H]; [exact H|].
  pose proof (ln_increasing y x Hy H). lra.
Qed.

(** The exponent that [next_power_of_two] computes. *)
Lemma log2_ceiling (w : Z) :
  (1 <= w)%Z ->
  let k := Zceil (ln (IZR w) / ln 2) in
  (0 <= k)%Z /\ (w <= 2 ^ k)%Z /\
  (forall j, (0 <= j)%Z -> (w <= 2 ^ j)%Z -> (k <= j)%Z).
Proof.
  intros Hw k.
  pose proof ln_2_pos as H2.
  assert (HwR : 1 <= IZR w) by (apply IZR_le; exact Hw).
  assert (Hlnw : 0 <= ln (IZR w)) by (rewrite <- ln_1; apply ln_le_mono; lra).
  pose proof (Zceil_bound (ln (IZR w) / ln 2)) as [Hlow Hup]. fold k in Hlow, Hup.
  assert (Hx : 0 <= ln (IZR w) / ln 2).
  { unfold Rdiv. apply Rmult_le_pos; [exact Hlnw|].
    left. apply Rinv_0_lt_compat. exact H2. }
  assert (Hk : (0 <= k)%Z) by (apply le_IZR; lra).
  split; [exact Hk|]. split.
  - apply le_IZR. apply ln_le_reflect; [lra| |].
    + apply IZR_lt. apply Z.pow_pos_nonneg; lia.
    + rewrite <- (Z2Nat.id k) by exact Hk. rewrite ln_power_of_two.
      rewrite INR_IZR_INZ, Z2Nat.id by exact Hk.
      apply (Rmult_le_compat_r (ln 2)) in Hup; [|lra].
      unfold Rdiv in Hup. rewrite Rmult_assoc, Rinv_l, Rmult_1_r in Hup by lra.
      exact Hup.
  - intros j Hj Hwj.
    assert (Hlnj : ln (IZR w) <= IZR j * ln 2).
    { rewrite <- (Z2Nat.id j) in Hwj by exact Hj.
      apply IZR_le in Hwj. apply ln_le_mono in Hwj; [|lra].
      rewrite ln_power_of_two, INR_IZR_INZ, Z2Nat.id in Hwj by exact Hj.
      exact Hwj. }
    assert (Hxj : ln (IZR w) / ln 2 <= IZR j).
    { apply (Rmult_le_reg_r (ln 2)); [lra|].
      unfold Rdiv. rewrite Rmult_assoc, Rinv_l, Rmult_1_r by lra. exact Hlnj. }
    assert (Hlt : IZR k - 1 < IZR j) by lra.
    rewrite <- minus_IZR in Hlt. apply lt_IZR in Hlt. lia.
Qed.

Lemma next_power_of_two_smallest (w : Z) :
  (1 <= w)%Z ->
  exists p, next_power_of_two w = Ok p /\ smallest_power_of_two_above w p.
Proof.
  intros Hw. unfold next_power_of_two.
  destruct (Z.eqb_spec w 0) as [|_]; [lia|].
  destruct (Z.ltb_spec w 0) as [|_]; [lia|].
  destruct (log2_ceiling Hw) as (Hk & Hle & Hmin).
  eexists. split; [reflexivity|]. unfold smallest_power_of_two_above.
  split; [eexists; split; [exact Hk|reflexivity]|].
  split; [exact Hle|].
  intros j Hj Hwj. apply Z.pow_le_mono_r; [lia|]. apply Hmin; assumption.
Qed.


Lemma reference_window_length : py_round (IZR 16000 * 0.025) = 400%Z.
Proof.
  replace (IZR 16000 * 0.025) with (IZR 400) by lra. apply py_round_integer.
Qed.




(** Ties go to the even neighbour. *)
Example py_round_ties : py_round 2.5 = 2%Z /\ py_round 3.5 = 4%Z.
Proof.
  unfold py_round. split.
  - assert (Hf : Zfloor 2.5 = 2%Z) by (apply Zfloor_eq; simpl; lra).
    rewrite Hf. simpl IZR.
    destruct (Rlt_dec (2.5 - 2) (1 / 2)) as [H|_]; [lra|].
    destruct (Rlt_dec (1 / 2) (2.5 - 2)) as [H|_]; [lra|]. reflexivity.
  - assert (Hf : Zfloor 3.5 = 3%Z) by (apply Zfloor_eq; simpl; lra).
    rewrite Hf. simpl IZR.
    destruct (Rlt_dec (3.5 - 3) (1 / 2)) as [H|_]; [lra|].
    destruct (Rlt_dec (1 / 2) (3.5 - 3)) as [H|_]; [lra|]. reflexivity.
Qed.

(** The window of two points: [0] and [1]. *)
Example periodic_hann_2 : periodic_hann 2 = Ok [0; 1].
Proof.
  unfold periodic_hann, range. simpl. f_equal.
  replace (2 * PI / 2 * 0) with 0 by field.
  replace (2 * PI / 2 * 1) with PI by field.
  rewrite cos_0, cos_PI. f_equal; [lra|]. f_equal. lra.
Qed.

(** A batch of one signal loses its leading axis. *)
Example squeeze_batch_of_one :
  squeeze_axis0 {| shape := [1; 3]%nat; values := [1; 2; 3] |}
  = Ok {| shape := [3%nat]; values := [1; 2; 3] |}.
Proof. reflexivity. Qed.

(** * Further properties of the transform *)

(** ** Framing: short signals, bounds, overlap *)

(** X1: with a positive hop, a signal shorter than the window gives an
    empty frame matrix when it is short by at most one hop, and the
    negative-dimension ValueError of the strided view when it is short by
    more. *)
Theorem frame_short_signal (A : Type) (data : list A) (W H : Z) :
  (0 < H)%Z -> (Z.of_nat (length data) < W)%Z ->
  frame data W H
  = if (W <=? Z.of_nat (length data) + H)%Z then Ok []
    else Raise NegativeDimensions.
Proof.
  intros HH Hlt.
  destruct (Z.leb_spec W (Z.of_nat (length data) + H)) as [Hle|Hgt].
  - apply frame_short_within_hop; lia.
  - apply frame_short_beyond_hop; lia.
Qed.

Lemma frame_short_signal_witness :
  frame [1; 2; 3]%Z 5 2
  = (if (5 <=? Z.of_nat (length [1; 2; 3]%Z) + 2)%Z then Ok []
     else Raise NegativeDimensions).
Proof. apply (@frame_short_signal Z [1; 2; 3]%Z 5 2); simpl; lia. Defined.

Lemma frame_empty_window (A : Type) (data : list A) (H : Z) :
  (0 < H)%Z ->
  frame data 0 H = Ok (map (fun _ => []) (range (1 + Z.of_nat (length data) / H))).
Proof.
  intros HH. unfold frame.
  destruct (Z.eqb_spec H 0) as [|_]; [lia|].
  rewrite Z.sub_0_r. unfold as_strided.
  assert (0 <= Z.of_nat (length data) / H)%Z by (apply Z.div_pos; lia).
  destruct (Z.ltb_spec (1 + Z.of_nat (length data) / H) 0) as [|_]; [lia|].
  simpl. apply mapM_ok_map. intros i _. reflexivity.
Qed.

(** X2: with a positive hop the strided view never reaches outside the
    signal, whatever the window length: [frame] either returns frames or
    raises the negative-dimension ValueError, and it returns exactly when
    [0 <= W <= N + H]. *)
Theorem frame_reads_in_bounds (A : Type) (data : list A) (W H : Z) :
  (0 < H)%Z ->
  ((exists rows, frame data W H = Ok rows)
   <-> (0 <= W <= Z.of_nat (length data) + H)%Z) /\
  ((forall rows, frame data W H <> Ok rows) ->
   frame data W H = Raise NegativeDimensions).
Proof.
  intros HH.
  assert (Hcases :
    (0 <= W <= Z.of_nat (length data) + H)%Z /\ (exists rows, frame data W H = Ok rows)
    \/ ~ (0 <= W <= Z.of_nat (length data) + H)%Z
       /\ frame data W H = Raise NegativeDimensions).
  { destruct (Z_lt_le_dec W 0) as [Hneg|Hnn].
    - right. split; [lia|]. unfold frame, as_strided.
      destruct (Z.eqb_spec H 0) as [|_]; [lia|].
      destruct (Z.ltb_spec W 0) as [_|]; [|lia].
      rewrite orb_true_r. reflexivity.
    - destruct (Z_le_gt_dec W (Z.of_nat (length data))) as [Hfit|Hshort].
      + left. split; [lia|].
        destruct (Z.eq_dec W 0) as [->|HW0].
        * eexists. apply frame_empty_window. exact HH.
        * eexists. apply frame_full_frames; lia.
      + destruct (Z_le_gt_dec W (Z.of_nat (length data) + H)) as [Hhop|Hfar].
        * left. split; [lia|]. exists []. apply frame_short_within_hop; lia.
        * right. split; [lia|]. apply frame_short_beyond_hop; lia. }
  split; [split|].
  - intros [rows Hrows]. destruct Hcases as [[Hb _]|[_ Hr]]; [exact Hb|].
    rewrite Hr in Hrows. discriminate.
  - intros Hb. destruct Hcases as [[_ Hok]|[Hnb _]]; [exact Hok|contradiction].
  - intros Hno. destruct Hcases as [[_ [rows Hrows]]|[_ Hr]]; [|exact Hr].
    exfalso. exact (Hno rows Hrows).
Qed.

Lemma frame_reads_in_bounds_witness :
  ((exists rows, frame [1; 2; 3]%Z 2 1 = Ok rows)
   <-> (0 <= 2 <= Z.of_nat (length [1; 2; 3]%Z) + 1)%Z) /\
  ((forall rows, frame [1; 2; 3]%Z 2 1 <> Ok rows) ->
   frame [1; 2; 3]%Z 2 1 = Raise NegativeDimensions).
Proof. apply (@frame_reads_in_bounds Z [1; 2; 3]%Z 2 1). lia. Defined.

Lemma Ok_inj (A : Type) (a b : A) : Ok a = Ok b -> a = b.
Proof. intros H. injection H as ->. reflexivity. Qed.

(** X3: consecutive frames overlap as the hop says: when the hop is at
    most the window, frame [i] without its first [H] samples is the
    first [W - H] samples of frame [i + 1]. *)
Theorem frame_overlap (A : Type) (data : list A) (W H : Z) (rows : list (list A))
  (i : nat) (r r' : list A) :
  (0 < H)%Z -> (H <= W)%Z -> (W <= Z.of_nat (length data))%Z ->
  frame data W H = Ok rows ->
  nth_error rows i = Some r -> nth_error rows (S i) = Some r' ->
  skipn (Z.to_nat H) r = firstn (Z.to_nat (W - H)) r'.
Proof.
  intros HH HHW HN Hfr Hr Hr'.
  rewrite frame_full_frames in Hfr by lia. apply Ok_inj in Hfr. subst rows.
  unfold range in Hr, Hr'.
  set (nf := Z.to_nat (1 + (Z.of_nat (length data) - W) / H)) in *.
  rewrite nth_error_map, nth_error_seq in Hr, Hr'.
  destruct (Nat.ltb_spec i nf) as [_|]; [|discriminate Hr].
  destruct (Nat.ltb_spec (S i) nf) as [_|]; [|discriminate Hr'].
  cbn [option_map Nat.add] in Hr, Hr'.
  injection Hr as <-. injection Hr' as <-.
  rewrite skipn_firstn_comm, skipn_skipn, firstn_firstn.
  replace (Z.to_nat W - Z.to_nat H)%nat with (Z.to_nat (W - H)) by lia.
  rewrite Nat.min_l by lia.
  reflexivity.
Qed.

Lemma frame_overlap_witness :
  skipn (Z.to_nat 3) [10; 11; 12; 13]%Z = firstn (Z.to_nat (4 - 3)) [13; 14; 15; 16]%Z.
Proof.
  apply (@frame_overlap Z [10; 11; 12; 13; 14; 15; 16; 17; 18; 19]%Z 4 3
           [[10; 11; 12; 13]; [13; 14; 15; 16]; [16; 17; 18; 19]]%Z 0%nat);
    try reflexivity; simpl; lia.
Defined.

Lemma firstn_add_skipn (A : Type) (a b : nat) (l : list A) :
  firstn (a + b) l = firstn a l ++ firstn b (skipn a l).
Proof.
  revert l. induction a as [|a IH]; intros l; simpl; [reflexivity|].
  destruct l as [|x l]; simpl.
  - rewrite firstn_nil. reflexivity.
  - rewrite IH. reflexivity.
Qed.

Lemma concat_chunks (A : Type) (l : list A) (w n : nat) :
  concat (map (fun i => firstn w (skipn (i * w) l)) (seq 0 n)) = firstn (n * w) l.
Proof.
  induction n as [|n IH]; [reflexivity|].
  rewrite seq_S, map_app, concat_app, IH. simpl.
  rewrite app_nil_r. replace (w + n * w)%nat with (n * w + w)%nat by lia.
  symmetry. apply firstn_add_skipn.
Qed.

(** X4: with the hop equal to the window the frames tile the signal:
    laid end to end they are the signal up to the last full window, and
    fewer than [W] samples are left over. *)
Theorem frame_tiles_signal (A : Type) (data : list A) (W : Z) (rows : list (list A)) :
  (0 < W)%Z -> (W <= Z.of_nat (length data))%Z ->
  frame data W W = Ok rows ->
  concat rows = firstn (length rows * Z.to_nat W) data /\
  concat rows ++ skipn (length rows * Z.to_nat W) data = data /\
  (length data - length rows * Z.to_nat W < Z.to_nat W)%nat.
Proof.
  intros HW HN Hfr.
  rewrite frame_full_frames in Hfr by lia. apply Ok_inj in Hfr. subst rows.
  unfold range. rewrite length_map, length_seq, concat_chunks.
  split; [reflexivity|]. split; [apply firstn_skipn|].
  set (N := Z.of_nat (length data)) in *.
  assert (Hq : (0 <= (N - W) / W)%Z) by (apply Z.div_pos; lia).
  pose proof (Z.mod_pos_bound (N - W) W HW) as Hmod.
  pose proof (Z.div_mod (N - W) W) as Hdm.
  apply Nat2Z.inj_lt.
  destruct (Nat.le_gt_cases (Z.to_nat (1 + (N - W) / W) * Z.to_nat W) (length data))
    as [Hle|Hgt].
  - rewrite Nat2Z.inj_sub by exact Hle.
    rewrite Nat2Z.inj_mul, !Z2Nat.id by lia. fold N. nia.
  - replace (length data - _)%nat with 0%nat by lia. lia.
Qed.

Lemma frame_tiles_signal_witness :
  concat [[1; 2]; [3; 4]]%Z = firstn (length [[1; 2]; [3; 4]]%Z * Z.to_nat 2) [1; 2; 3; 4; 5]%Z /\
  concat [[1; 2]; [3; 4]]%Z ++ skipn (length [[1; 2]; [3; 4]]%Z * Z.to_nat 2) [1; 2; 3; 4; 5]%Z
  = [1; 2; 3; 4; 5]%Z /\
  (length [1; 2; 3; 4; 5]%Z - length [[1; 2]; [3; 4]]%Z * Z.to_nat 2 < Z.to_nat 2)%nat.
Proof.
  apply (@frame_tiles_signal Z [1; 2; 3; 4; 5]%Z 2 [[1; 2]; [3; 4]]%Z);
    [lia|simpl; lia|reflexivity].
Defined.

(** X5: [frame] returns every complete frame and no other: the last
    frame ends inside the signal, and one more hop would leave less than
    a window. *)
Theorem frame_count_maximal (A : Type) (data : list A) (W H : Z) (rows : list (list A)) :
  (0 < W)%Z -> (0 < H)%Z -> (W <= Z.of_nat (length data))%Z ->
  frame data W H = Ok rows ->
  (1 <= Z.of_nat (length rows))%Z /\
  ((Z.of_nat (length rows) - 1) * H + W <= Z.of_nat (length data))%Z /\
  (Z.of_nat (length data) < Z.of_nat (length rows) * H + W)%Z.
Proof.
  intros HW HH HN Hfr.
  rewrite frame_full_frames in Hfr by lia. apply Ok_inj in Hfr. subst rows.
  unfold range. rewrite length_map, length_seq.
  set (N := Z.of_nat (length data)) in *.
  assert (Hq : (0 <= (N - W) / H)%Z) by (apply Z.div_pos; lia).
  pose proof (Z.mod_pos_bound (N - W) H HH) as Hmod.
  pose proof (Z.div_mod (N - W) H) as Hdm.
  rewrite Z2Nat.id by lia. nia.
Qed.

Lemma frame_count_maximal_witness :
  (1 <= Z.of_nat (length [[1; 2]; [3; 4]]%Z))%Z /\
  ((Z.of_nat (length [[1; 2]; [3; 4]]%Z) - 1) * 2 + 2
   <= Z.of_nat (length [1; 2; 3; 4; 5]%Z))%Z /\
  (Z.of_nat (length [1; 2; 3; 4; 5]%Z)
   < Z.of_nat (length [[1; 2]; [3; 4]]%Z) * 2 + 2)%Z.
Proof.
  apply (@frame_count_maximal Z [1; 2; 3; 4; 5]%Z 2 2 [[1; 2]; [3; 4]]%Z);
    [lia|lia|simpl; lia|reflexivity].
Defined.

Lemma read_map (A B : Type) (f : A -> B) (data : list A) (z : Z) :
  read (map f data) z = fmap f (read data z).
Proof.
  unfold read. destruct (z <? 0)%Z; [reflexivity|].
  rewrite nth_error_map. destruct (nth_error data (Z.to_nat z)); reflexivity.
Qed.

Lemma mapM_fmap (A B C : Type) (F : A -> result C) (G : A -> result B)
  (g : B -> C) (l : list A) :
  (forall a, F a = fmap g (G a)) -> mapM F l = fmap (map g) (mapM G l).
Proof.
  intros HF. induction l as [|a l IH]; simpl; [reflexivity|].
  rewrite HF, IH. destruct (G a); simpl; [|reflexivity].
  destruct (mapM G l); reflexivity.
Qed.

Lemma frame_commutes_with_map (A B : Type) (f : A -> B) (data : list A) (W H : Z) :
  frame (map f data) W H = fmap (map (map f)) (frame data W H).
Proof.
  unfold frame. rewrite length_map.
  destruct (H =? 0)%Z; [reflexivity|].
  unfold as_strided. destruct (_ || _)%bool; [reflexivity|].
  apply mapM_fmap. intros i. apply mapM_fmap. intros j. apply read_map.
Qed.

(** X6: [frame] only rearranges samples: whether and how it raises is
    decided by the lengths alone, and the frames of a signal transformed
    sample by sample are the frames of the signal, transformed sample by
    sample. *)
Theorem frame_map (A B : Type) (f : A -> B) (data : list A) (W H : Z) :
  (forall e, frame (map f data) W H = Raise e <-> frame data W H = Raise e) /\
  (forall rows, frame data W H = Ok rows ->
     frame (map f data) W H = Ok (map (map f) rows)).
Proof.
  rewrite frame_commutes_with_map.
  destruct (frame data W H) as [rows|e0]; simpl.
  - split; [intros e; split; discriminate|].
    intros rows' Hrows. apply Ok_inj in Hrows. subst rows'. reflexivity.
  - split; [|intros rows; discriminate].
    intros e; split; intros He; injection He as <-; reflexivity.
Qed.

Lemma read_row_overrun (A : Type) (data : list A) (off : Z) :
  off = 0%Z ->
  forall w s, (s <= length data < s + w)%nat ->
    mapM (fun j => read data (off + Z.of_nat j * 1)%Z) (seq s w)
    = Raise UndefinedRead.
Proof.
  intros ->. induction w as [|w IH]; intros s Hs; [lia|].
  cbn [seq mapM]. unfold read at 1.
  replace (0 + Z.of_nat s * 1)%Z with (Z.of_nat s) by lia.
  destruct (Z.ltb_spec (Z.of_nat s) 0) as [|_]; [lia|].
  rewrite Nat2Z.id.
  destruct (nth_error data s) as [x|] eqn:Hx; [|reflexivity].
  assert (s < length data)%nat by (apply nth_error_Some; rewrite Hx; discriminate).
  cbn [bind]. rewrite IH by lia. reflexivity.
Qed.

(** X7: a negative hop is not refused: on a signal shorter than the
    window the frame count stays positive and the very first frame of the
    strided view runs past the end of the buffer. *)
Theorem frame_negative_hop_overruns (A : Type) (data : list A) (W H : Z) :
  (H < 0)%Z -> (Z.of_nat (length data) < W)%Z ->
  frame data W H = Raise UndefinedRead.
Proof.
  intros HH HN. unfold frame.
  destruct (Z.eqb_spec H 0) as [|_]; [lia|].
  set (N := Z.of_nat (length data)) in *.
  assert (Hq : (0 <= (N - W) / H)%Z).
  { rewrite <- Z.div_opp_opp by lia. apply Z.div_pos; lia. }
  unfold as_strided.
  destruct (Z.ltb_spec (1 + (N - W) / H) 0) as [|_]; [lia|].
  destruct (Z.ltb_spec W 0) as [|_]; [lia|]. simpl orb. cbv iota.
  unfold range at 2.
  destruct (Z.to_nat (1 + (N - W) / H)) as [|nf] eqn:Hnf; [lia|].
  cbn [seq mapM]. unfold range.
  rewrite read_row_overrun; [reflexivity|lia|]. unfold N in HN. lia.
Qed.

Lemma frame_negative_hop_overruns_witness :
  frame [1; 2; 3]%Z 5 (-2) = Raise UndefinedRead.
Proof. apply (@frame_negative_hop_overruns Z [1; 2; 3]%Z 5 (-2)); simpl; lia. Defined.

(** ** The periodic Hann window: shape *)

Lemma periodic_hann_nth (L : Z) (w : list R) (n : nat) :
  periodic_hann L = Ok w -> (n < Z.to_nat L)%nat ->
  nth_error w n = Some (0.5 - 0.5 * cos (2 * PI / IZR L * INR n)).
Proof.
  unfold periodic_hann. destruct (L =? 0)%Z; [discriminate|].
  intros Hw Hn. apply Ok_inj in Hw. subst w. unfold range.
  rewrite nth_error_map, nth_error_seq.
  destruct (Nat.ltb_spec n (Z.to_nat L)) as [_|]; [reflexivity|lia].
Qed.

(** X8: the window is one full period of the raised cosine: apart from
    index 0 it reads the same from both ends, [w[n] = w[L - n]] for
    [1 <= n < L]. *)
Theorem periodic_hann_mirror (L : Z) (w : list R) (n : nat) :
  periodic_hann L = Ok w -> (1 <= n < Z.to_nat L)%nat ->
  nth_error w (Z.to_nat L - n) = nth_error w n.
Proof.
  intros Hw Hn.
  rewrite (periodic_hann_nth _ Hw) by lia.
  rewrite (periodic_hann_nth _ Hw) by lia.
  assert (HL : IZR L <> 0) by (apply not_0_IZR; lia).
  rewrite minus_INR by lia.
  rewrite (INR_IZR_INZ (Z.to_nat L)), Z2Nat.id by lia.
  replace (2 * PI / IZR L * (IZR L - INR n))
    with (- (2 * PI / IZR L * INR n) + 2 * INR 1 * PI)
    by (simpl INR; field; exact HL).
  rewrite cos_period, cos_neg. reflexivity.
Qed.

Lemma periodic_hann_mirror_witness :
  exists w, periodic_hann 4 = Ok w /\
    nth_error w (Z.to_nat 4 - 1) = nth_error w 1.
Proof.
  eexists. split; [reflexivity|].
  apply (@periodic_hann_mirror 4%Z _ 1%nat); [reflexivity|simpl; lia].
Defined.

(** X9: for an even length [L = 2 h] two window values half a window
    apart add up to one, [w[n] + w[n + h] = 1]; in particular the window
    peaks at [w[h] = 1]. *)
Theorem periodic_hann_half_shift (h : Z) (w : list R) (n : nat) :
  (1 <= h)%Z -> periodic_hann (2 * h) = Ok w -> (n < Z.to_nat h)%nat ->
  (exists a b,
     nth_error w n = Some a /\ nth_error w (n + Z.to_nat h) = Some b /\
     a + b = 1) /\
  nth_error w (Z.to_nat h) = Some 1.
Proof.
  intros Hh Hw Hn.
  assert (HhR : IZR h <> 0) by (apply not_0_IZR; lia).
  assert (Hshift : forall m : nat,
    cos (2 * PI / IZR (2 * h) * INR (m + Z.to_nat h))
    = - cos (2 * PI / IZR (2 * h) * INR m)).
  { intros m. rewrite <- neg_cos. f_equal.
    rewrite plus_INR, (INR_IZR_INZ (Z.to_nat h)), Z2Nat.id by lia.
    rewrite mult_IZR. field. exact HhR. }
  split.
  - do 2 eexists. split; [apply (periodic_hann_nth _ Hw); lia|].
    split; [apply (periodic_hann_nth _ Hw); lia|].
    rewrite Hshift. lra.
  - rewrite (periodic_hann_nth _ Hw) by lia. f_equal.
    change (Z.to_nat h) with (0 + Z.to_nat h)%nat. rewrite Hshift.
    simpl INR. rewrite Rmult_0_r, cos_0. lra.
Qed.

Lemma periodic_hann_half_shift_witness :
  exists w, periodic_hann (2 * 2) = Ok w /\
    (exists a b,
       nth_error w 1 = Some a /\ nth_error w (1 + Z.to_nat 2) = Some b /\
       a + b = 1) /\
    nth_error w (Z.to_nat 2) = Some 1.
Proof.
  eexists. split; [reflexivity|].
  apply (@periodic_hann_half_shift 2%Z _ 1%nat); [lia|reflexivity|simpl; lia].
Defined.

Lemma cos_lt_1_inside (x : R) : 0 < x < 2 * PI -> cos x < 1.
Proof.
  intros [H0 H2].
  replace x with (2 * (x / 2)) by field.
  rewrite cos_2a_sin.
  assert (Hs : 0 < sin (x / 2)) by (apply sin_gt_0; lra).
  nra.
Qed.

(** X10: index 0 is the only zero of the window: every other value is
    strictly positive, the last one included (the window stops one step
    before the cosine returns to zero). *)
Theorem periodic_hann_interior_positive (L : Z) (w : list R) (n : nat) :
  periodic_hann L = Ok w -> (1 <= n < Z.to_nat L)%nat ->
  exists x, nth_error w n = Some x /\ 0 < x.
Proof.
  intros Hw Hn. eexists. split; [apply (periodic_hann_nth _ Hw); lia|].
  assert (HL : 0 < IZR L) by (apply IZR_lt; lia).
  assert (Hn0 : 0 < INR n) by (apply lt_0_INR; lia).
  assert (HnL : INR n < IZR L).
  { rewrite <- (Z2Nat.id L) by lia. rewrite <- INR_IZR_INZ. apply lt_INR. lia. }
  pose proof PI_RGT_0 as Hpi.
  assert (Hcos : cos (2 * PI / IZR L * INR n) < 1).
  { apply cos_lt_1_inside. split.
    - apply Rmult_lt_0_compat; [apply Rdiv_lt_0_compat; lra|exact Hn0].
    - apply (Rmult_lt_reg_r (IZR L)); [exact HL|].
      replace (2 * PI / IZR L * INR n * IZR L) with (2 * PI * INR n) by (field; lra).
      apply Rmult_lt_compat_l; lra. }
  lra.
Qed.

Lemma periodic_hann_interior_positive_witness :
  exists w, periodic_hann 4 = Ok w /\
    exists x, nth_error w 3 = Some x /\ 0 < x.
Proof.
  eexists. split; [reflexivity|].
  apply (@periodic_hann_interior_positive 4%Z _ 3%nat); [reflexivity|simpl; lia].
Defined.

(** ** The filterbank: outcomes *)

(** X11: [spectrogram_to_mel_matrix] returns a matrix exactly when the
    edge frequencies pass the range checks, there is at least one
    spectrogram bin, the number of mel bins is not negative and the break
    frequency is not zero. *)
Theorem mel_matrix_returns_iff (uninit : R) (self : LogMelSpectrogramNp)
  (M K sr : Z) (lo hi : R) :
  (exists m, spectrogram_to_mel_matrix uninit self M K sr lo hi = Ok m)
  <-> range_accepted sr lo hi /\ (1 <= K)%Z /\ (0 <= M)%Z
      /\ mel_break_freq_hertz self <> 0.
Proof.
  split.
  - intros [m Hm]. apply mel_matrix_returned in Hm. tauto.
  - intros (Hr & HK & HM & Hb). eexists. apply mel_matrix_returns; assumption.
Qed.

Ltac split_iffs :=
  repeat match goal with
         | |- _ /\ _ => split
         | |- _ <-> _ => split
         end;
  intros.

(** X12: the three range checks are made in order, so the error names the
    first one violated: a negative lower edge whatever the rest; a lower
    edge not below the upper one only when it is not negative; an upper
    edge above Nyquist only when the first two checks pass. *)
Theorem mel_matrix_range_error_order (uninit : R) (self : LogMelSpectrogramNp)
  (M K sr : Z) (lo hi : R) :
  (spectrogram_to_mel_matrix uninit self M K sr lo hi
   = Raise (InvalidRange LowerNegative) <-> lo < 0) /\
  (spectrogram_to_mel_matrix uninit self M K sr lo hi
   = Raise (InvalidRange LowerNotBelowUpper) <-> 0 <= lo /\ hi <= lo) /\
  (spectrogram_to_mel_matrix uninit self M K sr lo hi
   = Raise (InvalidRange UpperAboveNyquist)
   <-> 0 <= lo /\ lo < hi /\ IZR sr / 2 < hi).
Proof.
  rewrite spectrogram_to_mel_matrix_cases.
  destruct (Rlt_dec lo 0) as [H0|H0].
  { split_iffs; try discriminate; try lra; reflexivity. }
  destruct (Rge_dec lo hi) as [H1|H1].
  { split_iffs; try discriminate; try lra; reflexivity. }
  destruct (Rgt_dec hi (IZR sr / 2)) as [H2|H2].
  { split_iffs; try discriminate; try lra; reflexivity. }
  assert (Hrest : forall v,
    (if (K <? 0)%Z then Raise NegativeDimensions
     else if Req_dec_T (mel_break_freq_hertz self) 0 then Raise ZeroDivisionError
     else if (M <? 0)%Z then Raise NegativeDimensions
     else if (K =? 0)%Z then Raise IndexError
     else Ok (repeat 0 (Z.to_nat M) :: tl (triangle_rows self M K sr lo hi)))
    <> Raise (InvalidRange v)).
  { intros v. destruct (K <? 0)%Z; [discriminate|].
    destruct (Req_dec_T _ 0); [discriminate|].
    destruct (M <? 0)%Z; [discriminate|].
    destruct (K =? 0)%Z; discriminate. }
  split_iffs; try lra;
    match goal with
    | H : _ = Raise (InvalidRange _) |- _ => exfalso; exact (Hrest _ H)
    end.
Qed.

(** X13: with edge frequencies that pass the range checks, a bad count or
    constant is reported by the library call that meets it: a negative
    number of spectrogram or mel bins by the ValueError of [np.linspace]
    or [np.empty], a zero break frequency by ZeroDivisionError, no
    spectrogram bin at all by the IndexError of the DC-row assignment. *)
Theorem mel_matrix_other_errors (uninit : R) (self : LogMelSpectrogramNp)
  (M K sr : Z) (lo hi : R) :
  range_accepted sr lo hi ->
  (spectrogram_to_mel_matrix uninit self M K sr lo hi = Raise NegativeDimensions
   <-> (K < 0)%Z \/ (mel_break_freq_hertz self <> 0 /\ (M < 0)%Z)) /\
  (spectrogram_to_mel_matrix uninit self M K sr lo hi = Raise ZeroDivisionError
   <-> (0 <= K)%Z /\ mel_break_freq_hertz self = 0) /\
  (spectrogram_to_mel_matrix uninit self M K sr lo hi = Raise IndexError
   <-> K = 0%Z /\ mel_break_freq_hertz self <> 0 /\ (0 <= M)%Z).
Proof.
  intros Hr. rewrite mel_matrix_accepted by exact Hr.
  destruct (Z.ltb_spec K 0) as [HK|HK].
  { split_iffs; intuition (try discriminate; try lia; try congruence). }
  destruct (Req_dec_T (mel_break_freq_hertz self) 0) as [Hb|Hb].
  { split_iffs; intuition (try discriminate; try lia; try congruence). }
  destruct (Z.ltb_spec M 0) as [HM|HM].
  { split_iffs; intuition (try discriminate; try lia; try congruence). }
  destruct (Z.eqb_spec K 0) as [HK0|HK0].
  { split_iffs; intuition (try discriminate; try lia; try congruence). }
  split_iffs; intuition (try discriminate; try lia; try congruence).
Qed.

Lemma mel_matrix_other_errors_witness :
  (spectrogram_to_mel_matrix 0 reference_module 20 0 8000 125 3800
   = Raise NegativeDimensions
   <-> (0 < 0)%Z \/ (mel_break_freq_hertz reference_module <> 0 /\ (20 < 0)%Z)) /\
  (spectrogram_to_mel_matrix 0 reference_module 20 0 8000 125 3800
   = Raise ZeroDivisionError
   <-> (0 <= 0)%Z /\ mel_break_freq_hertz reference_module = 0) /\
  (spectrogram_to_mel_matrix 0 reference_module 20 0 8000 125 3800 = Raise IndexError
   <-> 0%Z = 0%Z /\ mel_break_freq_hertz reference_module <> 0 /\ (0 <= 20)%Z).
Proof.
  apply (@mel_matrix_other_errors 0 reference_module 20 0 8000 125 3800).
  exact reference_range_accepted.
Defined.

Lemma mel_matrix_dimensions (uninit : R) (self : LogMelSpectrogramNp)
  (M K sr : Z) (lo hi : R) (m : list (list R)) :
  spectrogram_to_mel_matrix uninit self M K sr lo hi = Ok m ->
  length m = Z.to_nat K /\ Forall (fun row => length row = Z.to_nat M) m.
Proof.
  intros Hm. apply mel_matrix_returned in Hm.
  destruct Hm as (-> & _ & HK & _). split.
  - unfold triangle_rows, range.
    destruct (Z.to_nat K) as [|k] eqn:Hk; [lia|].
    cbn [seq map tl length]. rewrite length_map, length_seq. reflexivity.
  - constructor; [apply repeat_length|].
    apply Forall_forall. intros row Hrow. apply In_tl in Hrow.
    unfold triangle_rows in Hrow. apply in_map_iff in Hrow.
    destruct Hrow as [k [<- _]]. apply band_weights_length.
Qed.

(** X14: a returned matrix has one row per spectrogram bin and one column
    per mel bin, a matrix of no columns for [M = 0] included. *)
Theorem mel_matrix_shape (uninit : R) (self : LogMelSpectrogramNp)
  (M K sr : Z) (lo hi : R) (m : list (list R)) :
  spectrogram_to_mel_matrix uninit self M K sr lo hi = Ok m ->
  length m = Z.to_nat K /\ Forall (fun row => length row = Z.to_nat M) m.
Proof. apply mel_matrix_dimensions. Qed.

Lemma mel_matrix_shape_witness :
  exists m,
    spectrogram_to_mel_matrix 0 reference_module 20 129 8000 125 3800 = Ok m /\
    length m = Z.to_nat 129 /\ Forall (fun row => length row = Z.to_nat 20) m.
Proof.
  eexists. split.
  - apply mel_matrix_returns; [exact reference_range_accepted|lia|lia|simpl; lra].
  - apply (@mel_matrix_shape 0 reference_module 20 129 8000 125 3800).
    apply mel_matrix_returns; [exact reference_range_accepted|lia|lia|simpl; lra].
Defined.

(** X15: the outcome does not depend on what [np.empty] left in the
    matrix: every cell is written before the matrix is returned. *)
Theorem mel_matrix_ignores_uninitialised (u1 u2 : R) (self : LogMelSpectrogramNp)
  (M K sr : Z) (lo hi : R) :
  spectrogram_to_mel_matrix u1 self M K sr lo hi
  = spectrogram_to_mel_matrix u2 self M K sr lo hi.
Proof. rewrite !spectrogram_to_mel_matrix_cases. reflexivity. Qed.

(** ** The filterbank: shape of the triangles *)

Lemma nth_error_map_seq (A : Type) (g : nat -> A) (n k : nat) :
  (k < n)%nat -> nth_error (map g (seq 0 n)) k = Some (g k).
Proof.
  intros Hk. rewrite nth_error_map, nth_error_seq.
  destruct (Nat.ltb_spec k n) as [_|]; [reflexivity|lia].
Qed.

(** Row [k >= 1] of a returned matrix, entry by entry. *)
Lemma mel_matrix_entry (uninit : R) (self : LogMelSpectrogramNp)
  (M K sr : Z) (lo hi : R) (m : list (list R)) (k i : nat) (row : list R) (v : R) :
  spectrogram_to_mel_matrix uninit self M K sr lo hi = Ok m ->
  (1 <= k)%nat -> nth_error m k = Some row -> nth_error row i = Some v ->
  v = triangle_weight (band_edge self M lo hi i) (band_edge self M lo hi (S i))
                      (band_edge self M lo hi (S (S i))) (bin_mel self K sr k).
Proof.
  intros Hm Hk Hrow Hv. apply mel_matrix_returned in Hm.
  destruct Hm as (-> & _ & HK & HM & _).
  destruct k as [|k]; [lia|]. simpl in Hrow.
  assert (Hlen : (S k < Z.to_nat K)%nat).
  { assert (Hk' : (k < length (tl (triangle_rows self M K sr lo hi)))%nat)
      by (apply nth_error_Some; rewrite Hrow; discriminate).
    unfold triangle_rows, range in Hk'.
    destruct (Z.to_nat K) as [|n]; [simpl in Hk'; lia|].
    cbn [seq map tl] in Hk'. rewrite length_map, length_seq in Hk'. lia. }
  assert (Hrow' : nth_error (triangle_rows self M K sr lo hi) (S k) = Some row).
  { destruct (triangle_rows self M K sr lo hi); [destruct k; discriminate Hrow|exact Hrow]. }
  unfold triangle_rows, range in Hrow'.
  rewrite nth_error_map_seq in Hrow' by exact Hlen.
  injection Hrow' as <-.
  assert (Hi : (i < Z.to_nat M)%nat).
  { rewrite <- (band_weights_length
                  (map (evenly_spaced (hertz_to_mel self lo) (hertz_to_mel self hi) (M + 2))
                       (seq 0 (Z.to_nat (M + 2))))
                  (Z.to_nat M)
                  (hertz_to_mel self (evenly_spaced 0 (IZR sr / 2) K (S k)))).
    apply nth_error_Some. rewrite Hv. discriminate. }
  unfold band_weights in Hv. rewrite nth_error_map_seq in Hv by exact Hi.
  injection Hv as <-.
  unfold band_edge, bin_mel.
  rewrite !nth_map_seq by lia. reflexivity.
Qed.

Lemma quotient_le_1 (a b : R) : 0 < b -> a <= b -> a / b <= 1.
Proof.
  intros Hb Hab. apply (Rmult_le_reg_r b); [exact Hb|].
  unfold Rdiv. rewrite Rmult_assoc, Rinv_l by lra. lra.
Qed.

Lemma quotient_ge_1 (a b : R) : 0 < b -> b <= a -> 1 <= a / b.
Proof.
  intros Hb Hab. apply (Rmult_le_reg_r b); [exact Hb|].
  unfold Rdiv. rewrite Rmult_assoc, Rinv_l by lra. lra.
Qed.

Lemma quotient_nonneg (a b : R) : 0 < b -> 0 <= a -> 0 <= a / b.
Proof.
  intros Hb Ha. unfold Rdiv. apply Rmult_le_pos; [exact Ha|].
  left. apply Rinv_0_lt_compat. exact Hb.
Qed.

Lemma quotient_nonpos (a b : R) : 0 < b -> a <= 0 -> a / b <= 0.
Proof.
  intros Hb Ha. apply (Rmult_le_reg_r b); [exact Hb|].
  unfold Rdiv. rewrite Rmult_assoc, Rinv_l by lra. lra.
Qed.

Lemma triangle_weight_peak (l c u : R) :
  l < c -> c < u -> triangle_weight l c u c = 1.
Proof.
  intros Hlc Hcu. unfold triangle_weight.
  replace ((c - l) / (c - l)) with 1 by (field; lra).
  replace ((u - c) / (u - c)) with 1 by (field; lra).
  rewrite Rmin_left by lra. apply Rmax_right. lra.
Qed.

Lemma triangle_weight_beyond (l c u x : R) :
  c < u -> u <= x -> triangle_weight l c u x = 0.
Proof.
  intros Hcu Hx. unfold triangle_weight.
  apply Rmax_left. eapply Rle_trans; [apply Rmin_r|].
  apply quotient_nonpos; lra.
Qed.

Lemma triangle_weight_falling (l c u x : R) :
  l < c -> c < u -> c <= x ->
  triangle_weight l c u x = Rmax 0 ((u - x) / (u - c)).
Proof.
  intros Hlc Hcu Hx. unfold triangle_weight. f_equal.
  apply Rmin_right.
  apply Rle_trans with 1; [apply quotient_le_1; lra|apply quotient_ge_1; lra].
Qed.

Lemma triangle_weight_rising (l c u x : R) :
  l < c -> c < u -> l <= x -> x <= c ->
  triangle_weight l c u x = (x - l) / (c - l).
Proof.
  intros Hlc Hcu Hl Hx. unfold triangle_weight.
  rewrite Rmin_left
    by (apply Rle_trans with 1; [apply quotient_le_1; lra|apply quotient_ge_1; lra]).
  apply Rmax_right. apply quotient_nonneg; lra.
Qed.

Lemma Rsum_app (l1 l2 : list R) : Rsum (l1 ++ l2) = Rsum l1 + Rsum l2.
Proof.
  induction l1 as [|a l1 IH]; simpl; [lra|]. rewrite IH. lra.
Qed.

Lemma band_sum_S (e : nat -> R) (M : nat) (x : R) :
  band_sum e (S M) x
  = band_sum e M x + triangle_weight (e M) (e (S M)) (e (S (S M))) x.
Proof.
  unfold band_sum. rewrite seq_S, map_app, Rsum_app. simpl. lra.
Qed.

Section PartitionOfUnity.

Variable e : nat -> R.
Hypothesis e_increasing : forall j, e j < e (S j).

Lemma edges_monotone (i j : nat) : (i <= j)%nat -> e i <= e j.
Proof.
  induction 1 as [|j _ IH]; [lra|]. pose proof (e_increasing j). lra.
Qed.

(** The bands as they accumulate: below the first centre the total is at
    most one, between the first and the last centre it is exactly one,
    and above the last centre only the falling side of the last band is
    left. *)
Lemma band_sum_profile (M : nat) (x : R) :
  (x <= e 1%nat -> band_sum e (S M) x <= 1) /\
  (e 1%nat <= x <= e (S M) -> band_sum e (S M) x = 1) /\
  (e (S M) <= x ->
   band_sum e (S M) x = Rmax 0 ((e (S (S M)) - x) / (e (S (S M)) - e (S M)))).
Proof.
  induction M as [|M (IHa & IHb & IHc)].
  - pose proof (e_increasing 0) as H0. pose proof (e_increasing 1) as H1.
    rewrite band_sum_S. unfold band_sum at 1 2 3. simpl Rsum.
    rewrite !Rplus_0_l.
    split; [|split].
    + intros _. apply triangle_weight_le_1; assumption.
    + intros [Hx1 Hx2]. replace x with (e 1%nat) by lra.
      apply triangle_weight_peak; assumption.
    + intros Hx. apply triangle_weight_falling; assumption.
  - pose proof (e_increasing (S M)) as H0.
    pose proof (e_increasing (S (S M))) as H1.
    pose proof (edges_monotone (i := 1) (j := S M) ltac:(lia)) as H1M.
    rewrite band_sum_S.
    split; [|split].
    + intros Hx. rewrite triangle_weight_below by lra.
      specialize (IHa Hx). lra.
    + intros [Hx1 Hx2].
      destruct (Rle_lt_dec x (e (S M))) as [Hle|Hgt].
      * rewrite IHb by lra. rewrite triangle_weight_below by lra. lra.
      * rewrite IHc by lra.
        rewrite triangle_weight_rising by lra.
        rewrite Rmax_right by (apply quotient_nonneg; lra).
        field. lra.
    + intros Hx. rewrite IHc by lra.
      rewrite Rmax_left by (apply quotient_nonpos; lra).
      rewrite triangle_weight_falling by lra. lra.
Qed.

Lemma band_sum_le_1 (M : nat) (x : R) : band_sum e M x <= 1.
Proof.
  destruct M as [|M]; [unfold band_sum; simpl; lra|].
  destruct (band_sum_profile M x) as (Ha & Hb & Hc).
  pose proof (e_increasing (S M)) as H0.
  destruct (Rle_lt_dec x (e 1%nat)) as [H1|H1]; [apply Ha; exact H1|].
  destruct (Rle_lt_dec x (e (S M))) as [H2|H2]; [rewrite Hb; lra|].
  rewrite Hc by lra. apply Rmax_lub; [lra|]. apply quotient_le_1; lra.
Qed.

End PartitionOfUnity.

Lemma band_edge_lt (self : LogMelSpectrogramNp) (M : Z) (lo hi : R) (j : nat) :
  (0 <= M)%Z -> hertz_to_mel self lo < hertz_to_mel self hi ->
  band_edge self M lo hi j < band_edge self M lo hi (S j).
Proof.
  intros HM Hmel. unfold band_edge, evenly_spaced.
  replace (M + 2 - 1)%Z with (M + 1)%Z by lia.
  apply band_edge_increasing; assumption.
Qed.

Lemma returned_edges_increasing (uninit : R) (self : LogMelSpectrogramNp)
  (M K sr : Z) (lo hi : R) (m : list (list R)) :
  spectrogram_to_mel_matrix uninit self M K sr lo hi = Ok m ->
  0 < mel_break_freq_hertz self -> 0 < mel_high_freq_q self ->
  forall j, band_edge self M lo hi j < band_edge self M lo hi (S j).
Proof.
  intros Hm Hb Hq j. apply mel_matrix_returned in Hm.
  destruct Hm as (_ & (H0 & H1 & _) & _ & HM & _).
  apply band_edge_lt; [exact HM|]. apply hertz_to_mel_increasing; assumption.
Qed.

(** X16: each band peaks at one: where the mel value of a spectrogram
    bin (other than the DC bin) coincides with the centre of band [i],
    the weight of that bin in band [i] is exactly 1 (positive mel-scale
    constants). *)
Theorem mel_weight_peak (uninit : R) (self : LogMelSpectrogramNp)
  (M K sr : Z) (lo hi : R) (m : list (list R)) (k i : nat) (row : list R) (v : R) :
  spectrogram_to_mel_matrix uninit self M K sr lo hi = Ok m ->
  0 < mel_break_freq_hertz self -> 0 < mel_high_freq_q self ->
  (1 <= k)%nat -> nth_error m k = Some row -> nth_error row i = Some v ->
  bin_mel self K sr k = band_edge self M lo hi (S i) ->
  v = 1.
Proof.
  intros Hm Hb Hq Hk Hrow Hv Hcentre.
  rewrite (@mel_matrix_entry _ _ _ _ _ _ _ _ _ _ _ _ Hm Hk Hrow Hv), Hcentre.
  apply triangle_weight_peak; eapply returned_edges_increasing; eassumption.
Qed.

(** X17: each band is limited to its own interval: a spectrogram bin
    whose mel value is at or below the lower edge of band [i], or at or
    above its upper edge, has weight 0 in that band (positive mel-scale
    constants). *)
Theorem mel_weight_support (uninit : R) (self : LogMelSpectrogramNp)
  (M K sr : Z) (lo hi : R) (m : list (list R)) (k i : nat) (row : list R) (v : R) :
  spectrogram_to_mel_matrix uninit self M K sr lo hi = Ok m ->
  0 < mel_break_freq_hertz self -> 0 < mel_high_freq_q self ->
  nth_error m k = Some row -> nth_error row i = Some v ->
  bin_mel self K sr k <= band_edge self M lo hi i
  \/ band_edge self M lo hi (S (S i)) <= bin_mel self K sr k ->
  v = 0.
Proof.
  intros Hm Hb Hq Hrow Hv Hout.
  destruct k as [|k].
  - (* the DC row *)
    apply mel_matrix_returned in Hm. destruct Hm as (-> & _).
    simpl in Hrow. injection Hrow as <-.
    apply nth_error_In in Hv. apply repeat_spec in Hv. exact Hv.
  - assert (Hk : (1 <= S k)%nat) by lia.
    rewrite (@mel_matrix_entry _ _ _ _ _ _ _ _ _ _ _ _ Hm Hk Hrow Hv).
    pose proof (@returned_edges_increasing _ _ _ _ _ _ _ _ Hm Hb Hq) as Hinc.
    destruct Hout as [Hlow|Hup].
    + apply triangle_weight_below; [apply Hinc|exact Hlow].
    + apply triangle_weight_beyond; [apply Hinc|exact Hup].
Qed.

Lemma band_weights_as_band_sum (self : LogMelSpectrogramNp) (M : Z) (lo hi x : R) :
  (0 <= M)%Z ->
  Rsum (band_weights
          (map (evenly_spaced (hertz_to_mel self lo) (hertz_to_mel self hi) (M + 2))
               (range (M + 2)))
          (Z.to_nat M) x)
  = band_sum (band_edge self M lo hi) (Z.to_nat M) x.
Proof.
  intros HM. unfold band_weights, band_sum. f_equal.
  apply map_ext_in. intros i Hi. apply in_seq in Hi.
  unfold range. rewrite !nth_map_seq by lia. reflexivity.
Qed.

Lemma Rsum_repeat_0 (n : nat) : Rsum (repeat 0 n) = 0.
Proof. induction n as [|n IH]; simpl; [reflexivity|]. rewrite IH. lra. Qed.

Lemma mel_row_sum_profile (uninit : R) (self : LogMelSpectrogramNp)
  (M K sr : Z) (lo hi : R) (m : list (list R)) (k : nat) (row : list R) :
  spectrogram_to_mel_matrix uninit self M K sr lo hi = Ok m ->
  0 < mel_break_freq_hertz self -> 0 < mel_high_freq_q self ->
  nth_error m k = Some row ->
  Rsum row <= 1 /\
  ((1 <= k)%nat ->
   band_edge self M lo hi 1 <= bin_mel self K sr k
                            <= band_edge self M lo hi (Z.to_nat M) ->
   Rsum row = 1).
Proof.
  intros Hm Hb Hq Hrow.
  pose proof (@returned_edges_increasing _ _ _ _ _ _ _ _ Hm Hb Hq) as Hinc.
  pose proof Hm as Hret. apply mel_matrix_returned in Hret.
  destruct Hret as (Heq & _ & HK & HM & _).
  destruct k as [|k].
  - rewrite Heq in Hrow. simpl in Hrow. injection Hrow as <-.
    rewrite Rsum_repeat_0. split; [lra|lia].
  - assert (Hsum : Rsum row
                   = band_sum (band_edge self M lo hi) (Z.to_nat M)
                              (bin_mel self K sr (S k))).
    { rewrite Heq in Hrow. simpl in Hrow.
      assert (Hlen : (S k < Z.to_nat K)%nat).
      { assert (Hk' : (k < length (tl (triangle_rows self M K sr lo hi)))%nat)
          by (apply nth_error_Some; rewrite Hrow; discriminate).
        unfold triangle_rows, range in Hk'.
        destruct (Z.to_nat K) as [|n]; [simpl in Hk'; lia|].
        cbn [seq map tl] in Hk'. rewrite length_map, length_seq in Hk'. lia. }
      assert (Hrow' : nth_error (triangle_rows self M K sr lo hi) (S k) = Some row).
      { destruct (triangle_rows self M K sr lo hi);
          [destruct k; discriminate Hrow|exact Hrow]. }
      unfold triangle_rows in Hrow'. unfold range at 2 in Hrow'.
      rewrite nth_error_map_seq in Hrow' by exact Hlen.
      injection Hrow' as <-.
      apply band_weights_as_band_sum. exact HM. }
    rewrite Hsum. split.
    + apply band_sum_le_1. exact Hinc.
    + intros _ Hbetween.
      destruct (Z.to_nat M) as [|M'] eqn:HM'.
      * exfalso. pose proof (Hinc 0%nat). lra.
      * apply (band_sum_profile _ Hinc M'). exact Hbetween.
Qed.

(** X18: the bands share out each spectrogram bin without amplifying it
    (positive mel-scale constants): the weights of a row add up to at most
    one, and to exactly one for every bin, other than the DC bin, whose
    mel value lies between the centre of the first band and the centre of
    the last. *)
Theorem mel_weights_row_sum (uninit : R) (self : LogMelSpectrogramNp)
  (M K sr : Z) (lo hi : R) (m : list (list R)) (k : nat) (row : list R) :
  spectrogram_to_mel_matrix uninit self M K sr lo hi = Ok m ->
  0 < mel_break_freq_hertz self -> 0 < mel_high_freq_q self ->
  nth_error m k = Some row ->
  Rsum row <= 1 /\
  ((1 <= k)%nat ->
   band_edge self M lo hi 1 <= bin_mel self K sr k
                            <= band_edge self M lo hi (Z.to_nat M) ->
   Rsum row = 1).
Proof.
  intros Hm Hb Hq Hrow.
  exact (@mel_row_sum_profile uninit self M K sr lo hi m k row Hm Hb Hq Hrow).
Qed.

(** The small filterbank of the examples: one band from 0 Hz to 3 Hz over
    five bins at 0, 1, 2, 3 and 4 Hz, on the scale [mel f = ln (1 + f)];
    the band's centre, [ln 2], is the mel value of the bin at 1 Hz. *)
Lemma unit_scale_accepted : range_accepted 8 0 3.
Proof. unfold range_accepted. lra. Qed.

Lemma unit_scale_matrix :
  spectrogram_to_mel_matrix 0 unit_scale_module 1 5 8 0 3
  = Ok (repeat 0 (Z.to_nat 1) :: tl (triangle_rows unit_scale_module 1 5 8 0 3)).
Proof.
  apply mel_matrix_returns; [exact unit_scale_accepted|lia|lia|simpl; lra].
Qed.

Lemma ln_4 : ln 4 = 2 * ln 2.
Proof. replace 4 with (2 * 2) by lra. rewrite ln_mult by lra. lra. Qed.

Lemma unit_scale_bin_1 : bin_mel unit_scale_module 5 8 1 = ln 2.
Proof.
  unfold bin_mel, hertz_to_mel, evenly_spaced. simpl.
  replace (1 + (0 + 1 * (8 / 2 - 0) / 4) / 1) with 2 by lra. lra.
Qed.

Lemma unit_scale_bin_4 : bin_mel unit_scale_module 5 8 4 = ln 5.
Proof.
  unfold bin_mel, hertz_to_mel, evenly_spaced. simpl.
  replace (1 + (0 + (1 + 1 + 1 + 1) * (8 / 2 - 0) / 4) / 1) with 5 by lra. lra.
Qed.

Lemma unit_scale_edge (j : nat) :
  band_edge unit_scale_module 1 0 3 j = INR j * ln 2.
Proof.
  unfold band_edge, hertz_to_mel, evenly_spaced. simpl.
  replace (1 + 0 / 1) with 1 by lra. replace (1 + 3 / 1) with 4 by lra.
  rewrite ln_1, ln_4. lra.
Qed.

Lemma mel_weight_peak_witness :
  exists m row v,
    spectrogram_to_mel_matrix 0 unit_scale_module 1 5 8 0 3 = Ok m /\
    nth_error m 1 = Some row /\ nth_error row 0 = Some v /\ v = 1.
Proof.
  do 3 eexists. split; [exact unit_scale_matrix|].
  split; [reflexivity|]. split; [reflexivity|].
  eapply (@mel_weight_peak 0 unit_scale_module 1 5 8 0 3 _ 1%nat 0%nat _ _
           unit_scale_matrix).
  - simpl. lra.
  - simpl. lra.
  - lia.
  - reflexivity.
  - reflexivity.
  - rewrite unit_scale_bin_1, unit_scale_edge. simpl. lra.
Defined.

Lemma mel_weight_support_witness :
  exists m row v,
    spectrogram_to_mel_matrix 0 unit_scale_module 1 5 8 0 3 = Ok m /\
    nth_error m 4 = Some row /\ nth_error row 0 = Some v /\ v = 0.
Proof.
  do 3 eexists. split; [exact unit_scale_matrix|].
  split; [reflexivity|]. split; [reflexivity|].
  eapply (@mel_weight_support 0 unit_scale_module 1 5 8 0 3 _ 4%nat 0%nat _ _
           unit_scale_matrix).
  - simpl. lra.
  - simpl. lra.
  - reflexivity.
  - reflexivity.
  - right. rewrite unit_scale_bin_4, unit_scale_edge. simpl INR.
    replace ((1 + 1) * ln 2) with (ln 4) by (rewrite ln_4; lra).
    apply ln_le_mono; lra.
Defined.

Lemma mel_weights_row_sum_witness :
  exists m row,
    spectrogram_to_mel_matrix 0 unit_scale_module 1 5 8 0 3 = Ok m /\
    nth_error m 1 = Some row /\ Rsum row = 1.
Proof.
  do 2 eexists. split; [exact unit_scale_matrix|].
  split; [reflexivity|].
  eapply (@mel_weights_row_sum 0 unit_scale_module 1 5 8 0 3 _ 1%nat _
           unit_scale_matrix).
  - simpl. lra.
  - simpl. lra.
  - reflexivity.
  - lia.
  - rewrite unit_scale_bin_1, !unit_scale_edge. simpl. lra.
Defined.

(** ** The DC bin *)

(** X19: the DC bin never reaches the mel spectrogram: multiplying by a
    returned matrix gives the same mel energies whatever stands in the
    first column of the spectrogram. *)
Theorem dc_bin_excluded (uninit : R) (self : LogMelSpectrogramNp)
  (M K sr : Z) (lo hi : R) (m : list (list R)) (spectrogram : list (R * list R)) :
  spectrogram_to_mel_matrix uninit self M K sr lo hi = Ok m ->
  dot (map (fun f => fst f :: snd f) spectrogram) m M
  = dot (map (fun f => 0 :: snd f) spectrogram) m M.
Proof.
  intros Hm. apply mel_matrix_returned in Hm. destruct Hm as (-> & _).
  unfold dot. rewrite !map_map. apply map_ext. intros [x rest].
  apply map_ext. intros i. cbn [fst snd combine map Rsum fold_right].
  rewrite nth_repeat. lra.
Qed.

Lemma dc_bin_excluded_witness :
  exists m,
    spectrogram_to_mel_matrix 0 unit_scale_module 1 5 8 0 3 = Ok m /\
    dot (map (fun f => fst f :: snd f) [(7, [1; 2; 3; 4])]) m 1
    = dot (map (fun f => 0 :: snd f) [(7, [1; 2; 3; 4])]) m 1.
Proof.
  eexists. split; [exact unit_scale_matrix|].
  apply (@dc_bin_excluded 0 unit_scale_module 1 5 8 0 3 _ [(7, [1; 2; 3; 4])]
           unit_scale_matrix).
Defined.

(** ** The magnitude spectrum *)

Lemma combine_map_l (A B C : Type) (f : A -> C) (l : list A) (l' : list B) :
  combine (map f l) l' = map (fun p => (f (fst p), snd p)) (combine l l').
Proof.
  revert l'. induction l as [|a l IH]; intros [|b l']; simpl; try reflexivity.
  rewrite IH. reflexivity.
Qed.

Lemma combine_map_r (A B C : Type) (f : B -> C) (l : list A) (l' : list B) :
  combine l (map f l') = map (fun p => (fst p, f (snd p))) (combine l l').
Proof.
  revert l'. induction l as [|a l IH]; intros [|b l']; simpl; try reflexivity.
  rewrite IH. reflexivity.
Qed.

Lemma Rsum_scale (A : Type) (c : R) (g : A -> R) (l : list A) :
  Rsum (map (fun a => c * g a) l) = c * Rsum (map g l).
Proof.
  induction l as [|a l IH]; simpl; [lra|]. rewrite IH. lra.
Qed.

Lemma fit_length_scale (c : R) (n : nat) (row : list R) :
  fit_length n (map (Rmult c) row) = map (Rmult c) (fit_length n row).
Proof.
  unfold fit_length. rewrite map_app, firstn_map, length_map, map_repeat.
  rewrite Rmult_0_r. reflexivity.
Qed.

Lemma dft_magnitude_scale (c : R) (n : nat) (x : list R) (k : nat) :
  dft_magnitude n (map (Rmult c) x) k = Rabs c * dft_magnitude n x k.
Proof.
  unfold dft_magnitude. rewrite combine_map_r, !map_map. cbn [fst snd].
  set (re := Rsum (map (fun jx => snd jx * cos (2 * PI * INR (fst jx) * INR k / INR n))
                       (combine (seq 0 n) x))).
  set (im := Rsum (map (fun jx => - (snd jx * sin (2 * PI * INR (fst jx) * INR k / INR n)))
                       (combine (seq 0 n) x))).
  assert (Hre : Rsum (map (fun jx => c * snd jx
                                     * cos (2 * PI * INR (fst jx) * INR k / INR n))
                          (combine (seq 0 n) x)) = c * re).
  { unfold re. rewrite <- Rsum_scale. f_equal. apply map_ext. intros jx. ring. }
  assert (Him : Rsum (map (fun jx => - (c * snd jx
                                        * sin (2 * PI * INR (fst jx) * INR k / INR n)))
                          (combine (seq 0 n) x)) = c * im).
  { unfold im. rewrite <- Rsum_scale. f_equal. apply map_ext. intros jx. ring. }
  rewrite Hre, Him.
  replace (c * re * (c * re) + c * im * (c * im))
    with (Rsqr c * (re * re + im * im)) by (unfold Rsqr; ring).
  rewrite sqrt_mult; [|apply Rle_0_sqr|nra].
  rewrite sqrt_Rsqr_abs. reflexivity.
Qed.

Lemma rfft_magnitude_scale (c : R) (rows : list (list R)) (n : Z) :
  rfft_magnitude (map (map (Rmult c)) rows) n
  = fmap (map (map (Rmult (Rabs c)))) (rfft_magnitude rows n).
Proof.
  unfold rfft_magnitude. destruct (n <? 1)%Z; [reflexivity|]. simpl.
  f_equal. rewrite !map_map. apply map_ext. intros row.
  rewrite map_map. apply map_ext. intros k.
  rewrite fit_length_scale. apply dft_magnitude_scale.
Qed.

Lemma stft_magnitude_scale (self : LogMelSpectrogramNp) (c : R) (signal : list R)
  (n H W : Z) :
  stft_magnitude self (map (Rmult c) signal) n H W
  = fmap (map (map (Rmult (Rabs c)))) (stft_magnitude self signal n H W).
Proof.
  unfold stft_magnitude. rewrite frame_commutes_with_map.
  destruct (frame signal W H) as [frames|e]; simpl; [|reflexivity].
  destruct (periodic_hann W) as [window|e]; simpl; [|reflexivity].
  rewrite <- rfft_magnitude_scale. f_equal.
  rewrite !map_map. apply map_ext. intros fr.
  rewrite combine_map_l, !map_map. apply map_ext. intros [x w]. simpl. ring.
Qed.

(** X20: the magnitudes are not normalised and carry no sign: scaling
    the signal by [c] scales every magnitude of the spectrogram by
    [|c|], and changes nothing in whether [stft_magnitude] raises. *)
Theorem stft_magnitude_homogeneous (self : LogMelSpectrogramNp) (c : R)
  (signal : list R) (n H W : Z) :
  (forall e, stft_magnitude self (map (Rmult c) signal) n H W = Raise e
             <-> stft_magnitude self signal n H W = Raise e) /\
  (forall s, stft_magnitude self signal n H W = Ok s ->
     stft_magnitude self (map (Rmult c) signal) n H W
     = Ok (map (map (Rmult (Rabs c))) s)).
Proof.
  rewrite stft_magnitude_scale.
  destruct (stft_magnitude self signal n H W) as [s0|e0]; simpl.
  - split; [intros e; split; discriminate|].
    intros s Hs. apply Ok_inj in Hs. subst s. reflexivity.
  - split; [intros e; reflexivity|]. intros s; discriminate.
Qed.

(** X21: on a signal that holds at least one window, with a positive hop
    and FFT length, [stft_magnitude] returns one row per frame and
    [fft_length // 2 + 1] magnitudes, none negative, per row. *)
Theorem stft_magnitude_shape (self : LogMelSpectrogramNp) (signal : list R)
  (n H W : Z) :
  (0 < W)%Z -> (0 < H)%Z -> (W <= Z.of_nat (length signal))%Z -> (1 <= n)%Z ->
  exists s,
    stft_magnitude self signal n H W = Ok s /\
    Z.of_nat (length s) = (1 + (Z.of_nat (length signal) - W) / H)%Z /\
    Forall (fun row => length row = Z.to_nat (n / 2 + 1)) s /\
    Forall (Forall (fun x => 0 <= x)) s.
Proof.
  intros HW HH HN Hn. unfold stft_magnitude.
  rewrite frame_full_frames by assumption. cbn [bind].
  unfold periodic_hann.
  destruct (Z.eqb_spec W 0) as [|_]; [lia|]. cbn [bind].
  unfold rfft_magnitude.
  destruct (Z.ltb_spec n 1) as [|_]; [lia|].
  eexists. split; [reflexivity|].
  assert (Hq : (0 <= (Z.of_nat (length signal) - W) / H)%Z)
    by (apply Z.div_pos; lia).
  split; [|split].
  - rewrite !length_map. unfold range. rewrite length_seq. lia.
  - apply Forall_forall. intros row Hrow.
    apply in_map_iff in Hrow. destruct Hrow as [r [<- _]].
    unfold range. rewrite length_map, length_seq. reflexivity.
  - apply Forall_forall. intros row Hrow.
    apply in_map_iff in Hrow. destruct Hrow as [r [<- _]].
    apply Forall_forall. intros x Hx.
    apply in_map_iff in Hx. destruct Hx as [k [<- _]].
    unfold dft_magnitude. apply sqrt_pos.
Qed.

Lemma stft_magnitude_shape_witness :
  exists s,
    stft_magnitude unit_scale_module [1; 2; 3] 2 1 2 = Ok s /\
    Z.of_nat (length s) = (1 + (Z.of_nat (length [1; 2; 3]) - 2) / 1)%Z /\
    Forall (fun row => length row = Z.to_nat (2 / 2 + 1)) s /\
    Forall (Forall (fun x => 0 <= x)) s.
Proof.
  apply (@stft_magnitude_shape unit_scale_module [1; 2; 3] 2 1 2); simpl; lia.
Defined.

(** ** The forward pass on a batch of one signal *)

Lemma mel_plus_offset_signal (uninit : R) (self : LogMelSpectrogramNp)
  (n : nat) (signal : list R) :
  mel_plus_offset uninit self {| shape := [1%nat; n]; values := signal |}
  = (spectrogram <-
       stft_magnitude self signal (fft_length self)
                      (hop_length_samples self) (window_length_samples self) ;;
     mel_matrix <-
       spectrogram_to_mel_matrix uninit self (num_mel_bins self)
         (fft_length self / 2 + 1) (audio_sample_rate self)
         (lower_edge_hertz self) (upper_edge_hertz self) ;;
     Ok (map (map (fun x => x + log_offset self))
             (dot spectrogram mel_matrix (num_mel_bins self)))).
Proof. reflexivity. Qed.






Lemma stft_magnitude_length (self : LogMelSpectrogramNp) (signal : list R)
  (n H W : Z) (s : list (list R)) :
  (0 < W)%Z -> (0 < H)%Z -> (W <= Z.of_nat (length signal))%Z ->
  stft_magnitude self signal n H W = Ok s ->
  Z.of_nat (length s) = (1 + (Z.of_nat (length signal) - W) / H)%Z.
Proof.
  intros HW HH HN. unfold stft_magnitude.
  rewrite frame_full_frames by assumption. cbn [bind].
  destruct (periodic_hann W) as [window|e]; cbn [bind]; [|discriminate].
  unfold rfft_magnitude. destruct (n <? 1)%Z; [discriminate|].
  intros Hs. apply Ok_inj in Hs. subst s.
  assert (Hq : (0 <= (Z.of_nat (length signal) - W) / H)%Z)
    by (apply Z.div_pos; lia).
  rewrite !length_map. unfold range. rewrite length_seq. lia.
Qed.

(** X24: the shape of the output: on a signal that holds at least one
    window, what [forward] returns has one row per frame,
    [1 + floor((N - W) / H)] of them, and [num_mel_bins] columns. *)
Theorem forward_shape (uninit : R) (self : LogMelSpectrogramNp)
  (n : nat) (signal : list R) (out : list (list R)) :
  (0 < window_length_samples self)%Z -> (0 < hop_length_samples self)%Z ->
  (window_length_samples self <= Z.of_nat (length signal))%Z ->
  forward uninit self {| shape := [1%nat; n]; values := signal |} = Ok out ->
  Z.of_nat (length out)
  = (1 + (Z.of_nat (length signal) - window_length_samples self)
         / hop_length_samples self)%Z /\
  Forall (fun row => length row = Z.to_nat (num_mel_bins self)) out.
Proof.
  intros HW HH HN. unfold forward. rewrite mel_plus_offset_signal.
  destruct (stft_magnitude self signal _ _ _) as [s|e] eqn:Hs; simpl; [|discriminate].
  destruct (spectrogram_to_mel_matrix _ _ _ _ _ _ _) as [m|e]; simpl; [|discriminate].
  intros H. apply Ok_inj in H. subst out.
  split.
  - unfold dot. rewrite !length_map.
    eapply stft_magnitude_length; eassumption.
  - apply Forall_forall. intros row Hrow.
    apply in_map_iff in Hrow. destruct Hrow as [r1 [<- Hr1]].
    apply in_map_iff in Hr1. destruct Hr1 as [r0 [<- Hr0]].
    unfold dot in Hr0. apply in_map_iff in Hr0. destruct Hr0 as [a [<- _]].
    rewrite !length_map. unfold range. apply length_seq.
Qed.

Lemma reference_forward_returns :
  exists out,
    forward 0 reference_module {| shape := [1; 400]%nat; values := repeat 0 400 |}
    = Ok out.
Proof.
  apply (@forward_returns 0 reference_module 400 (repeat 0 400)).
  - simpl. lia.
  - simpl. lia.
  - rewrite repeat_length. simpl. lia.
  - simpl. lia.
  - unfold range_accepted. simpl. lra.
  - simpl. lia.
  - simpl. lra.
Qed.



Lemma forward_shape_witness :
  exists out,
    forward 0 reference_module {| shape := [1; 400]%nat; values := repeat 0 400 |}
    = Ok out /\
    Z.of_nat (length out)
    = (1 + (Z.of_nat (length (repeat 0 400)) - 400) / 160)%Z /\
    Forall (fun row => length row = Z.to_nat 64) out.
Proof.
  destruct reference_forward_returns as [out Hout].
  exists out. split; [exact Hout|].
  apply (@forward_shape 0 reference_module 400 (repeat 0 400) out);
    [simpl; lia|simpl; lia|rewrite repeat_length; simpl; lia|exact Hout].
Defined.

(** X25: a signal too short for the window by more than one hop makes
    [forward] raise the negative-dimension ValueError of the framing step,
    whatever the rest of the configuration. *)
Theorem forward_short_signal_raises (uninit : R) (self : LogMelSpectrogramNp)
  (n : nat) (signal : list R) :
  (0 < hop_length_samples self)%Z ->
  (Z.of_nat (length signal) + hop_length_samples self
   < window_length_samples self)%Z ->
  forward uninit self {| shape := [1%nat; n]; values := signal |}
  = Raise NegativeDimensions.
Proof.
  intros HH Hshort. unfold forward. rewrite mel_plus_offset_signal.
  unfold stft_magnitude. rewrite frame_short_beyond_hop by assumption.
  reflexivity.
Qed.

Lemma forward_short_signal_raises_witness :
  forward 0 reference_module {| shape := [1; 10]%nat; values := repeat 0 10 |}
  = Raise NegativeDimensions.
Proof.
  apply (@forward_short_signal_raises 0 reference_module 10 (repeat 0 10));
    simpl; lia.
Defined.

(** X26: a signal shorter than the window by at most one hop is not an
    error: with a configuration that [spectrogram_to_mel_matrix] accepts,
    [forward] returns a spectrogram of no frames. *)
Theorem forward_short_signal_empty (uninit : R) (self : LogMelSpectrogramNp)
  (n : nat) (signal : list R) :
  (0 < hop_length_samples self)%Z ->
  (Z.of_nat (length signal) < window_length_samples self
   <= Z.of_nat (length signal) + hop_length_samples self)%Z ->
  (1 <= fft_length self)%Z ->
  range_accepted (audio_sample_rate self) (lower_edge_hertz self) (upper_edge_hertz self) ->
  (0 <= num_mel_bins self)%Z ->
  mel_break_freq_hertz self <> 0 ->
  forward uninit self {| shape := [1%nat; n]; values := signal |} = Ok [].
Proof.
  intros HH HW Hfft Hr HM Hb. unfold forward. rewrite mel_plus_offset_signal.
  unfold stft_magnitude. rewrite frame_short_within_hop by assumption.
  cbn [bind]. unfold periodic_hann.
  destruct (Z.eqb_spec (window_length_samples self) 0) as [|_]; [lia|].
  cbn [bind]. unfold rfft_magnitude.
  destruct (Z.ltb_spec (fft_length self) 1) as [|_]; [lia|].
  cbn [bind map].
  rewrite mel_matrix_returns; [reflexivity|exact Hr| |exact HM|exact Hb].
  assert (0 <= fft_length self / 2)%Z by (apply Z.div_pos; lia). lia.
Qed.

Lemma forward_short_signal_empty_witness :
  forward 0 reference_module {| shape := [1; 300]%nat; values := repeat 0 300 |}
  = Ok [].
Proof.
  apply (@forward_short_signal_empty 0 reference_module 300 (repeat 0 300)).
  - simpl. lia.
  - rewrite repeat_length. simpl. lia.
  - simpl. lia.
  - unfold range_accepted. simpl. lra.
  - simpl. lia.
  - simpl. lra.
Defined.

(** ** Construction *)

(** X27: construction succeeds exactly when the window rounds to at
    least one sample; a window of zero samples raises OverflowError and a
    negative one the ValueError of converting NaN to an integer. *)
Theorem init_outcome (sample_rate : Z)
  (window_seconds hop_seconds offset : R) (bins : Z) (min_hz max_hz brk q : R) :
  ((exists self,
      init sample_rate window_seconds hop_seconds offset bins min_hz max_hz brk q
      = Ok self)
   <-> (1 <= py_round (IZR sample_rate * window_seconds))%Z) /\
  (init sample_rate window_seconds hop_seconds offset bins min_hz max_hz brk q
   = Raise OverflowError
   <-> py_round (IZR sample_rate * window_seconds) = 0%Z) /\
  (init sample_rate window_seconds hop_seconds offset bins min_hz max_hz brk q
   = Raise NanToInteger
   <-> (py_round (IZR sample_rate * window_seconds) < 0)%Z).
Proof.
  unfold init, next_power_of_two.
  set (w := py_round (IZR sample_rate * window_seconds)).
  destruct (Z.eqb_spec w 0) as [Hw0|Hw0]; cbn [bind].
  { split_iffs; try discriminate; try lia; try reflexivity.
    match goal with H : exists _, _ |- _ => destruct H as [? H]; discriminate H end. }
  destruct (Z.ltb_spec w 0) as [Hneg|Hpos]; cbn [bind].
  { split_iffs; try discriminate; try lia; try reflexivity.
    match goal with H : exists _, _ |- _ => destruct H as [? H]; discriminate H end. }
  split_iffs; try discriminate; try lia.
  eexists. reflexivity.
Qed.



(** X29: a hop that rounds to zero samples is accepted by the
    constructor, and the module it builds cannot transform anything:
    [forward] raises ZeroDivisionError, from the frame count, on every
    batch of one signal. *)
Theorem zero_hop_module_fails (uninit : R) (sample_rate : Z)
  (window_seconds hop_seconds offset : R) (bins : Z) (min_hz max_hz brk q : R) :
  (1 <= py_round (IZR sample_rate * window_seconds))%Z ->
  py_round (IZR sample_rate * hop_seconds) = 0%Z ->
  exists self,
    init sample_rate window_seconds hop_seconds offset bins min_hz max_hz brk q
    = Ok self /\
    forall n signal,
      forward uninit self {| shape := [1%nat; n]; values := signal |}
      = Raise ZeroDivisionError.
Proof.
  intros Hw Hhop. unfold init.
  destruct (next_power_of_two_smallest Hw) as [p [Hp _]].
  rewrite Hp. cbn [bind]. eexists. split; [reflexivity|].
  intros n signal. unfold forward. rewrite mel_plus_offset_signal.
  cbn [hop_length_samples]. rewrite Hhop. reflexivity.
Qed.

Lemma zero_hop_module_fails_witness :
  exists self,
    init 16000 0.025 0.00001 0.01 64 125 7500 700 1127 = Ok self /\
    forall n signal,
      forward 0 self {| shape := [1%nat; n]; values := signal |}
      = Raise ZeroDivisionError.
Proof.
  apply (@zero_hop_module_fails 0 16000 0.025 0.00001 0.01 64 125 7500 700 1127).
  - rewrite reference_window_length. lia.
  - apply py_round_below_half. lra.
Defined.

(** ** The mel projection does not amplify *)

Lemma Rsum_map_plus (A : Type) (g h : A -> R) (l : list A) :
  Rsum (map (fun a => g a + h a) l) = Rsum (map g l) + Rsum (map h l).
Proof.
  induction l as [|a l IH]; simpl; [lra|]. rewrite IH. lra.
Qed.

Lemma Rsum_exchange (A : Type) (g : nat -> A -> R) (cols : list nat) (l : list A) :
  Rsum (map (fun i => Rsum (map (g i) l)) cols)
  = Rsum (map (fun p => Rsum (map (fun i => g i p) cols)) l).
Proof.
  induction cols as [|i cols IH]; simpl.
  - induction l as [|p l IHl]; simpl; [reflexivity|]. rewrite <- IHl. lra.
  - rewrite IH, <- Rsum_map_plus. reflexivity.
Qed.

Lemma map_nth_seq (row : list R) :
  map (fun i => nth i row 0) (seq 0 (length row)) = row.
Proof.
  induction row as [|x row IH]; [reflexivity|].
  simpl. f_equal. rewrite <- seq_shift, map_map. exact IH.
Qed.

Lemma Rsum_le (A : Type) (g h : A -> R) (l : list A) :
  (forall a, In a l -> g a <= h a) -> Rsum (map g l) <= Rsum (map h l).
Proof.
  induction l as [|a l IH]; intros Hl; simpl; [lra|].
  pose proof (Hl a (or_introl eq_refl)).
  assert (Rsum (map g l) <= Rsum (map h l))
    by (apply IH; intros b Hb; apply Hl; right; exact Hb).
  lra.
Qed.

Lemma Rsum_combine_fst (a : list R) (B : Type) (b : list B) :
  Forall (fun x => 0 <= x) a -> Rsum (map fst (combine a b)) <= Rsum a.
Proof.
  intros Ha. revert b. induction Ha as [|x a Hx Ha IH]; intros b; simpl; [lra|].
  destruct b as [|y b]; simpl.
  - assert (0 <= Rsum a) by (apply Rsum_nonneg; apply Forall_forall; exact Ha). lra.
  - specialize (IH b). lra.
Qed.

(** X30: the mel projection does not amplify (positive mel-scale
    constants): for a frame of non-negative magnitudes the mel energies of
    the frame add up to at most the sum of its magnitudes. *)
Theorem mel_projection_bounded (uninit : R) (self : LogMelSpectrogramNp)
  (M K sr : Z) (lo hi : R) (m : list (list R))
  (spectrogram : list (list R)) (f : nat) (a r : list R) :
  spectrogram_to_mel_matrix uninit self M K sr lo hi = Ok m ->
  0 < mel_break_freq_hertz self -> 0 < mel_high_freq_q self ->
  nth_error spectrogram f = Some a -> Forall (fun x => 0 <= x) a ->
  nth_error (dot spectrogram m M) f = Some r ->
  Rsum r <= Rsum a.
Proof.
  intros Hm Hb Hq Ha Hpos Hr.
  unfold dot in Hr. rewrite nth_error_map, Ha in Hr. simpl in Hr.
  injection Hr as <-. unfold range.
  rewrite (Rsum_exchange (fun i xr => fst xr * nth i (snd xr) 0)).
  apply Rle_trans with (Rsum (map fst (combine a m)));
    [|apply Rsum_combine_fst; exact Hpos].
  apply Rsum_le. intros [x row] Hin. cbn [fst snd].
  rewrite Rsum_scale.
  assert (Hx : 0 <= x).
  { rewrite Forall_forall in Hpos. apply Hpos. eapply in_combine_l. exact Hin. }
  assert (Hrow : In row m) by (eapply in_combine_r; exact Hin).
  destruct (mel_matrix_dimensions _ _ _ _ _ _ _ Hm) as [_ Hlen].
  rewrite Forall_forall in Hlen. rewrite <- (Hlen row Hrow), map_nth_seq.
  apply In_nth_error in Hrow. destruct Hrow as [k Hk].
  destruct (@mel_row_sum_profile uninit self M K sr lo hi m k row Hm Hb Hq Hk)
    as [Hle _].
  nra.
Qed.

Lemma mel_projection_bounded_witness :
  exists m r,
    spectrogram_to_mel_matrix 0 unit_scale_module 1 5 8 0 3 = Ok m /\
    nth_error (dot [[7; 1; 2; 3; 4]] m 1) 0 = Some r /\
    Rsum r <= Rsum [7; 1; 2; 3; 4].
Proof.
  do 2 eexists. split; [exact unit_scale_matrix|].
  split; [reflexivity|].
  eapply (@mel_projection_bounded 0 unit_scale_module 1 5 8 0 3 _
            [[7; 1; 2; 3; 4]] 0%nat [7; 1; 2; 3; 4] _ unit_scale_matrix).
  - simpl. lra.
  - simpl. lra.
  - reflexivity.
  - repeat constructor; lra.
  - reflexivity.
Defined.
